(** * db-sync-engine: wipe-and-reload synchronisation of tables

    A shallow embedding of [src/main.py].  The two databases, the two
    SQLAlchemy metadata caches, the open sessions with their pending
    transactions, the clock and the log are the fields of one [World];
    every Python function is a computation in a state-and-exception monad
    over that world, so that [try]/[except]/[finally] read as in the
    source. *)

From stdpp Require Import gmap strings list fin_maps pretty.

(** ** Data model *)

(** A cell of a mirrored table. *)
Inductive Value :=
| VInt (z : Z)
| VText (s : string)
| VNull.

(** A row is what [row._asdict()] gives: column names with their values,
    in column order. *)
Abbreviation Row := (list (string * Value)).

(** A record of the [sync_tracking] table (columns [id], [table_name],
    [last_synced_at]). *)
Record TrackRec := mkTrackRec {
  tr_id : nat;
  tr_table_name : string;
  tr_last_synced_at : nat }.

(** The places of the source where a round trip to a database happens.  The
    environment decides at each round trip whether it fails. *)
Inductive Site :=
| mirror_reflect          (* create_table_if_not_exists: Table(.., primary) *)
| mirror_create_all       (* create_table_if_not_exists: create_all *)
| tracking_create         (* create_sync_tracking_table: tracking_table.create *)
| first_run_reflect       (* is_first_run: Table('sync_tracking', ..) *)
| first_run_select        (* is_first_run: execute(select) *)
| track_reflect           (* update_sync_tracking: Table('sync_tracking', ..) *)
| track_select            (* update_sync_tracking: select .. where *)
| track_update            (* update_sync_tracking: update .. where *)
| track_insert            (* update_sync_tracking: insert *)
| track_commit            (* update_sync_tracking: commit *)
| sync_reflect_primary    (* sync_table_changes: Table(.., primary) *)
| sync_reflect_secondary  (* sync_table_changes: Table(.., secondary) *)
| sync_select             (* sync_table_changes: primary select *)
| sync_delete             (* sync_table_changes: secondary delete *)
| sync_insert             (* sync_table_changes: secondary insert *)
| sync_commit             (* sync_table_changes: commit *)
| boot_reflect_primary    (* __main__: primary_metadata.reflect() *)
| boot_reflect_secondary. (* __main__: secondary_metadata.reflect() *)

(** Exceptions. *)
Inductive Exn :=
| NoSuchTableError (name : string)   (* reflection of an absent table *)
| ProgrammingError (name : string)   (* statement against an absent table *)
| OperationalError (s : Site).       (* failure decided by the environment *)

(** The text of the log lines, one constructor per format string. *)
Inductive Msg :=
| MsgMissingCreating (t : string)
| MsgCreated (t : string)
| MsgCreatingTracking
| MsgTrackingCreated
| MsgFirstRunCheckError (e : Exn)
| MsgTrackingUpdated (t : string)
| MsgTrackingFailed (t : string) (e : Exn)
| MsgSynchronized (ts : list string)
| MsgSyncError (ts : list string) (e : Exn)
| MsgInsertDetected (t : string)
| MsgUpdateDetected (t : string)
| MsgDeleteDetected (t : string)
| MsgFirstRun
| MsgNotFirstRun
| MsgSettingUp (t : string)
| MsgNotInPrimary (t : string)
| MsgSetupComplete.

Inductive LogLine :=
| LogInfo (m : Msg)
| LogError (m : Msg).

(** The uncommitted writes of a session: the tables it has rewritten, and
    the tracking table if it wrote to it. *)
Record Pending := mkPending {
  p_tables : gmap string (list Row);
  p_tracking : option (list TrackRec) }.

Definition no_pending : Pending := mkPending ∅ None.

(** The world.  The mirrored tables live in [primary_db] and
    [secondary_db]; the tracking table is kept in a store of its own
    ([tracking_db], [None] while the table does not exist), with its own
    entry [tracking_meta] in the secondary metadata: table names range over
    the mirrored tables.

    A row is inserted into the destination's own table, and the database
    stores what the columns of that table make of it: the values converted
    to the column types, the columns that the table has besides filled in.
    [secondary_stores w t row] is the row as the destination table [t]
    stores it (the table as it is, or as it will be once created); a table
    with the columns and the types of the source table stores the rows of
    the source as they are.  The program never changes this.

    The key of a new tracking record comes from the sequence of the
    tracking table, [tracking_seq] being the last value it gave: a value,
    once given, is not given again, also when the insert is rolled back. *)
Record World := mkWorld {
  primary_db : gmap string (list Row);
  secondary_db : gmap string (list Row);
  secondary_stores : string → Row → Row;
  tracking_db : option (list TrackRec);
  tracking_seq : nat;
  primary_meta : gset string;      (* primary_metadata.tables *)
  secondary_meta : gset string;    (* secondary_metadata.tables *)
  tracking_meta : bool;            (* 'sync_tracking' in secondary_metadata.tables *)
  sessions : gmap nat Pending;     (* open sessions *)
  clock : nat;                     (* datetime.utcnow() *)
  ticks : nat;                     (* round trips made so far *)
  logs : list LogLine }.           (* oldest first *)

Definition set_secondary_db (v : gmap string (list Row)) (w : World) : World :=
  mkWorld (primary_db w) v (secondary_stores w) (tracking_db w) (tracking_seq w)
          (primary_meta w) (secondary_meta w) (tracking_meta w) (sessions w)
          (clock w) (ticks w) (logs w).
Definition set_tracking_db (v : option (list TrackRec)) (w : World) : World :=
  mkWorld (primary_db w) (secondary_db w) (secondary_stores w) v (tracking_seq w)
          (primary_meta w) (secondary_meta w) (tracking_meta w) (sessions w)
          (clock w) (ticks w) (logs w).
Definition set_tracking_seq (v : nat) (w : World) : World :=
  mkWorld (primary_db w) (secondary_db w) (secondary_stores w) (tracking_db w) v
          (primary_meta w) (secondary_meta w) (tracking_meta w) (sessions w)
          (clock w) (ticks w) (logs w).
Definition set_primary_meta (v : gset string) (w : World) : World :=
  mkWorld (primary_db w) (secondary_db w) (secondary_stores w) (tracking_db w) (tracking_seq w)
          v (secondary_meta w) (tracking_meta w) (sessions w)
          (clock w) (ticks w) (logs w).
Definition set_secondary_meta (v : gset string) (w : World) : World :=
  mkWorld (primary_db w) (secondary_db w) (secondary_stores w) (tracking_db w) (tracking_seq w)
          (primary_meta w) v (tracking_meta w) (sessions w)
          (clock w) (ticks w) (logs w).
Definition set_tracking_meta (v : bool) (w : World) : World :=
  mkWorld (primary_db w) (secondary_db w) (secondary_stores w) (tracking_db w) (tracking_seq w)
          (primary_meta w) (secondary_meta w) v (sessions w)
          (clock w) (ticks w) (logs w).
Definition set_sessions (v : gmap nat Pending) (w : World) : World :=
  mkWorld (primary_db w) (secondary_db w) (secondary_stores w) (tracking_db w) (tracking_seq w)
          (primary_meta w) (secondary_meta w) (tracking_meta w) v
          (clock w) (ticks w) (logs w).
Definition set_clock (v : nat) (w : World) : World :=
  mkWorld (primary_db w) (secondary_db w) (secondary_stores w) (tracking_db w) (tracking_seq w)
          (primary_meta w) (secondary_meta w) (tracking_meta w) (sessions w)
          v (ticks w) (logs w).
Definition set_ticks (v : nat) (w : World) : World :=
  mkWorld (primary_db w) (secondary_db w) (secondary_stores w) (tracking_db w) (tracking_seq w)
          (primary_meta w) (secondary_meta w) (tracking_meta w) (sessions w)
          (clock w) v (logs w).
Definition set_logs (v : list LogLine) (w : World) : World :=
  mkWorld (primary_db w) (secondary_db w) (secondary_stores w) (tracking_db w) (tracking_seq w)
          (primary_meta w) (secondary_meta w) (tracking_meta w) (sessions w)
          (clock w) (ticks w) v.

(** ** The monad: state and exceptions *)

Inductive Result (A : Type) :=
| Ok (a : A)
| Raise (e : Exn).
Arguments Ok {A} a.
Arguments Raise {A} e.

Definition M (A : Type) : Type := World → Result A * World.

Definition ret {A} (a : A) : M A := λ w, (Ok a, w).
Definition raise {A} (e : Exn) : M A := λ w, (Raise e, w).
Definition bind {A B} (m : M A) (k : A → M B) : M B :=
  λ w, match m w with
       | (Ok a, w') => k a w'
       | (Raise e, w') => (Raise e, w')
       end.
Definition get : M World := λ w, (Ok w, w).
Definition modify (f : World → World) : M unit := λ w, (Ok tt, f w).

Global Instance M_ret : MRet M := @ret.
Global Instance M_bind : MBind M := λ A B k m, bind m k.

(** [try: m except: h] and [try: m finally: c] as in Python: the handler
    sees the world the failed body left; the cleanup runs on both exits and
    an exception of the cleanup replaces the outcome of the body. *)
Definition try_except {A} (m : M A) (h : Exn → M A) : M A :=
  λ w, match m w with
       | (Ok a, w') => (Ok a, w')
       | (Raise e, w') => h e w'
       end.
Definition try_finally {A} (m : M A) (c : M unit) : M A :=
  λ w, match m w with
       | (r, w') => match c w' with
                    | (Ok _, w'') => (r, w'')
                    | (Raise e, w'') => (Raise e, w'')
                    end
       end.

(** [for x in xs: body]. *)
Fixpoint for_each {A} (xs : list A) (body : A → M unit) : M unit :=
  match xs with
  | [] => ret tt
  | x :: xs' => body x ;; for_each xs' body
  end.

Definition logger_info (m : Msg) : M unit :=
  modify (λ w, set_logs (logs w ++ [LogInfo m]) w).
Definition logger_error (m : Msg) : M unit :=
  modify (λ w, set_logs (logs w ++ [LogError m]) w).

(** [datetime.utcnow()]: reads the clock, which then moves on. *)
Definition utcnow : M nat :=
  λ w, (Ok (clock w), set_clock (S (clock w)) w).

(** ** The database layer (SQLAlchemy engines, metadata and sessions) *)

Definition tracking_name : string := "sync_tracking".

Definition pending_of (sid : nat) (w : World) : Pending :=
  default no_pending (sessions w !! sid).

(** What a secondary session sees of a mirrored table and of the tracking
    table: its own pending writes first, the committed rows otherwise. *)
Definition view (sid : nat) (t : string) (w : World) : option (list Row) :=
  match p_tables (pending_of sid w) !! t with
  | Some rows => Some rows
  | None => secondary_db w !! t
  end.
Definition tracking_view (sid : nat) (w : World) : option (list TrackRec) :=
  match p_tracking (pending_of sid w) with
  | Some recs => Some recs
  | None => tracking_db w
  end.

Definition set_pending_table (sid : nat) (t : string) (rows : list Row) (w : World) : World :=
  let p := pending_of sid w in
  set_sessions (<[sid := mkPending (<[t := rows]> (p_tables p)) (p_tracking p)]> (sessions w)) w.
Definition set_pending_tracking (sid : nat) (recs : list TrackRec) (w : World) : World :=
  let p := pending_of sid w in
  set_sessions (<[sid := mkPending (p_tables p) (Some recs)]> (sessions w)) w.

Definition has_name (name : string) (r : TrackRec) : bool :=
  bool_decide (tr_table_name r = name).

Definition touch (name : string) (now : nat) (r : TrackRec) : TrackRec :=
  if has_name name r then mkTrackRec (tr_id r) (tr_table_name r) now else r.

Section Program.

(** The environment: [faults s n] says that the round trip made at place
    [s] when [n] round trips have been made before it fails. *)
Context (faults : Site → nat → bool).

Definition io (s : Site) : M unit :=
  λ w, let w' := set_ticks (S (ticks w)) w in
       if faults s (ticks w) then (Raise (OperationalError s), w') else (Ok tt, w').

(** [Table(name, primary_metadata, autoload_with=primary_engine)]: a table
    already in the metadata is returned as it is; otherwise it is reflected
    from the database, which raises when the table does not exist. *)
Definition primary_Table (s : Site) (name : string) : M unit :=
  w ← get;
  if bool_decide (name ∈ primary_meta w) then ret tt
  else
    io s ;;
    w ← get;
    match primary_db w !! name with
    | Some _ => modify (λ w, set_primary_meta ({[name]} ∪ primary_meta w) w)
    | None => raise (NoSuchTableError name)
    end.

Definition secondary_Table (s : Site) (name : string) : M unit :=
  w ← get;
  if bool_decide (name ∈ secondary_meta w) then ret tt
  else
    io s ;;
    w ← get;
    match secondary_db w !! name with
    | Some _ => modify (λ w, set_secondary_meta ({[name]} ∪ secondary_meta w) w)
    | None => raise (NoSuchTableError name)
    end.

(** [Table('sync_tracking', secondary_metadata, autoload_with=secondary_engine)]. *)
Definition tracking_Table (s : Site) : M unit :=
  w ← get;
  if tracking_meta w then ret tt
  else
    io s ;;
    w ← get;
    match tracking_db w with
    | Some _ => modify (set_tracking_meta true)
    | None => raise (NoSuchTableError tracking_name)
    end.

(** [primary_table.metadata.create_all(secondary_engine)]: every table of
    the primary metadata that the secondary database lacks is created,
    empty.  The engine commits this by itself, outside any session. *)
Definition create_all : M unit :=
  io mirror_create_all ;;
  modify (λ w, set_secondary_db (secondary_db w ∪ gset_to_gmap [] (primary_meta w)) w).

(** [PrimarySession()], [SecondarySession()]. *)
Definition new_session : M nat :=
  λ w, let sid := fresh (dom (sessions w)) in
       (Ok sid, set_sessions (<[sid := no_pending]> (sessions w)) w).
Definition PrimarySession : M nat := new_session.
Definition SecondarySession : M nat := new_session.

(** [session.close()] and [session.rollback()] drop the pending writes of
    the session and make no round trip that can fail: they are what the
    handlers and the [finally] blocks of the source call, and the source has
    nothing around them.  [session.commit()] is a round trip; when it goes
    through, the pending writes of the session become the committed rows. *)
Definition session_close (sid : nat) : M unit :=
  modify (λ w, set_sessions (delete sid (sessions w)) w).
Definition session_rollback (sid : nat) : M unit :=
  modify (λ w, set_sessions (alter (λ _, no_pending) sid (sessions w)) w).
Definition session_commit (s : Site) (sid : nat) : M unit :=
  io s ;;
  modify (λ w,
    let p := pending_of sid w in
    set_sessions (alter (λ _, no_pending) sid (sessions w))
      (set_tracking_db (match p_tracking p with Some recs => Some recs | None => tracking_db w end)
        (set_secondary_db (p_tables p ∪ secondary_db w) w))).

(** [primary_session.execute(primary_table.select()).fetchall()]. *)
Definition primary_select (s : Site) (sid : nat) (t : string) : M (list Row) :=
  io s ;;
  w ← get;
  match primary_db w !! t with
  | Some rows => ret rows
  | None => raise (ProgrammingError t)
  end.

(** [secondary_session.execute(secondary_table.delete())]. *)
Definition secondary_delete (s : Site) (sid : nat) (t : string) : M unit :=
  io s ;;
  w ← get;
  match view sid t w with
  | Some _ => modify (set_pending_table sid t [])
  | None => raise (ProgrammingError t)
  end.

(** [secondary_session.execute(secondary_table.insert().values(..))], the
    values being the columns of the row as [row._asdict()] gives them.  The
    statement is made for the destination's own table, which stores the row
    in its own columns.  A row that the table refuses (a column it does not
    have, a value that its type does not take) is a failure of this round
    trip. *)
Definition secondary_insert (s : Site) (sid : nat) (t : string) (row : Row) : M unit :=
  io s ;;
  w ← get;
  match view sid t w with
  | Some rows => modify (set_pending_table sid t (rows ++ [secondary_stores w t row]))
  | None => raise (ProgrammingError t)
  end.

(** The statements on the tracking table. *)
Definition tracking_select_all (s : Site) (sid : nat) : M (list TrackRec) :=
  io s ;;
  w ← get;
  match tracking_view sid w with
  | Some recs => ret recs
  | None => raise (ProgrammingError tracking_name)
  end.

Definition tracking_select_where (s : Site) (sid : nat) (name : string) : M (option TrackRec) :=
  io s ;;
  w ← get;
  match tracking_view sid w with
  | Some recs => ret (head (filter (λ r, has_name name r = true) recs))
  | None => raise (ProgrammingError tracking_name)
  end.

Definition tracking_update (s : Site) (sid : nat) (name : string) (now : nat) : M unit :=
  io s ;;
  w ← get;
  match tracking_view sid w with
  | Some recs => modify (set_pending_tracking sid (map (touch name now) recs))
  | None => raise (ProgrammingError tracking_name)
  end.

Definition tracking_insert (s : Site) (sid : nat) (name : string) (now : nat) : M unit :=
  io s ;;
  w ← get;
  match tracking_view sid w with
  | Some recs =>
      modify (λ w, set_tracking_seq (S (tracking_seq w))
                     (set_pending_tracking sid
                        (recs ++ [mkTrackRec (S (tracking_seq w)) name now]) w))
  | None => raise (ProgrammingError tracking_name)
  end.

(** ** The program *)

Definition create_table_if_not_exists (table_name : string) : M unit :=
  w ← get;
  if bool_decide (table_name ∈ secondary_meta w) then ret tt
  else
    logger_info (MsgMissingCreating table_name) ;;
    primary_Table mirror_reflect table_name ;;
    create_all ;;
    logger_info (MsgCreated table_name).

Definition create_sync_tracking_table : M unit :=
  w ← get;
  if tracking_meta w then ret tt
  else
    logger_info MsgCreatingTracking ;;
    modify (set_tracking_meta true) ;;
    io tracking_create ;;
    w ← get;
    match tracking_db w with
    | Some _ => raise (ProgrammingError tracking_name)
    | None =>
        modify (λ w, set_tracking_seq 0 (set_tracking_db (Some []) w)) ;;
        logger_info MsgTrackingCreated
    end.

Definition is_first_run : M bool :=
  tracking_Table first_run_reflect ;;
  secondary_session ← SecondarySession;
  try_finally
    (try_except
       (result ← tracking_select_all first_run_select secondary_session;
        ret (bool_decide (length result = 0)))
       (λ e, logger_error (MsgFirstRunCheckError e) ;; ret true))
    (session_close secondary_session).

Definition update_sync_tracking (table_name : string) : M unit :=
  tracking_Table track_reflect ;;
  secondary_session ← SecondarySession;
  try_finally
    (try_except
       (now ← utcnow;
        existing_entry ← tracking_select_where track_select secondary_session table_name;
        (match existing_entry with
         | Some _ => tracking_update track_update secondary_session table_name now
         | None => tracking_insert track_insert secondary_session table_name now
         end) ;;
        session_commit track_commit secondary_session ;;
        logger_info (MsgTrackingUpdated table_name))
       (λ e,
        session_rollback secondary_session ;;
        logger_error (MsgTrackingFailed table_name e)))
    (session_close secondary_session).

(** The body of the loop of [sync_table_changes]. *)
Definition sync_one (primary_session secondary_session : nat) (table_name : string) : M unit :=
  create_table_if_not_exists table_name ;;
  primary_Table sync_reflect_primary table_name ;;
  secondary_Table sync_reflect_secondary table_name ;;
  primary_data ← primary_select sync_select primary_session table_name;
  secondary_delete sync_delete secondary_session table_name ;;
  for_each primary_data
    (λ row, secondary_insert sync_insert secondary_session table_name row) ;;
  update_sync_tracking table_name.

Definition sync_table_changes (table_names : list string) : M unit :=
  primary_session ← PrimarySession;
  secondary_session ← SecondarySession;
  try_finally
    (try_except
       (for_each table_names (sync_one primary_session secondary_session) ;;
        session_commit sync_commit secondary_session ;;
        logger_info (MsgSynchronized table_names))
       (λ e,
        session_rollback secondary_session ;;
        logger_error (MsgSyncError table_names e)))
    (session_close primary_session ;;
     session_close secondary_session).

Definition after_insert (table_name : string) : M unit :=
  logger_info (MsgInsertDetected table_name) ;;
  sync_table_changes [table_name].
Definition after_update (table_name : string) : M unit :=
  logger_info (MsgUpdateDetected table_name) ;;
  sync_table_changes [table_name].
Definition after_delete (table_name : string) : M unit :=
  logger_info (MsgDeleteDetected table_name) ;;
  sync_table_changes [table_name].

(** [primary_metadata.reflect()], [secondary_metadata.reflect()]. *)
Definition primary_reflect : M unit :=
  io boot_reflect_primary ;;
  modify (λ w, set_primary_meta (primary_meta w ∪ dom (primary_db w)) w).
Definition secondary_reflect : M unit :=
  io boot_reflect_secondary ;;
  modify (λ w, set_tracking_meta (tracking_meta w || bool_decide (is_Some (tracking_db w)))
                 (set_secondary_meta (secondary_meta w ∪ dom (secondary_db w)) w)).

(** The [__main__] block, with the list of tables as its argument. *)
Definition main (tables_to_sync : list string) : M unit :=
  primary_reflect ;;
  secondary_reflect ;;
  create_sync_tracking_table ;;
  first ← is_first_run;
  (if (first : bool) then
     logger_info MsgFirstRun ;;
     sync_table_changes tables_to_sync
   else
     logger_info MsgNotFirstRun) ;;
  for_each tables_to_sync
    (λ table_name,
       w ← get;
       if bool_decide (table_name ∈ primary_meta w)
       then logger_info (MsgSettingUp table_name)
       else logger_error (MsgNotInPrimary table_name)) ;;
  logger_info MsgSetupComplete.

End Program.

Definition tables_to_sync : list string := ["example_table"; "another_table"].

(** The environment in which no round trip fails. *)
Definition no_faults : Site → nat → bool := λ _ _, false.

(** ** What the claims speak about *)

(** The rows of a destination table; a table that does not exist has none. *)
Definition dest_rows (w : World) (t : string) : list Row :=
  default [] (secondary_db w !! t).

(** The tracking records kept for one table name. *)
Definition records_for (name : string) (recs : list TrackRec) : list TrackRec :=
  filter (λ r, has_name name r = true) recs.

(** One record per tracked name, at most. *)
Definition one_per_name (recs : list TrackRec) : Prop :=
  ∀ name, length (records_for name recs) ≤ 1.

(** What a committed upsert leaves in the tracking table, [id] being the
    key that the sequence gives when a record is inserted. *)
Definition upsert (name : string) (now id : nat) (recs : list TrackRec) : list TrackRec :=
  match head (records_for name recs) with
  | Some _ => map (touch name now) recs
  | None => recs ++ [mkTrackRec id name now]
  end.

(** The last line of the log tells how a batch ended. *)
Definition committed (names : list string) (w' : World) : Prop :=
  last (logs w') = Some (LogInfo (MsgSynchronized names)).
Definition rolled_back (names : list string) (e : Exn) (w' : World) : Prop :=
  last (logs w') = Some (LogError (MsgSyncError names e)).

(** Every tracking update that the log reports has its record. *)
Definition tracked (w : World) : Prop :=
  ∀ t, LogInfo (MsgTrackingUpdated t) ∈ logs w →
       ∃ recs, tracking_db w = Some recs ∧ records_for t recs ≠ [].

(** The secondary metadata only knows tables that exist. *)
Definition meta_ok (w : World) : Prop :=
  ∀ t, t ∈ secondary_meta w → is_Some (secondary_db w !! t).

(** The round trips on the tracking table that stand inside a [try]: the
    statements and the commit of the tracking upsert, and the select of the
    first-run test. *)
Definition tracking_site (s : Site) : bool :=
  match s with
  | track_select | track_update | track_insert | track_commit | first_run_select => true
  | _ => false
  end.

(** The state of a process that has just started: empty metadata, no
    session, empty log. *)
Definition boot_world (pdb sdb : gmap string (list Row)) (sto : string → Row → Row)
    (tdb : option (list TrackRec)) (seq now : nat) : World :=
  mkWorld pdb sdb sto tdb seq ∅ ∅ false ∅ now 0 [].

(** ** Predicates of the proofs *)

(** The frame of [update_sync_tracking]: the two databases of mirrored
    tables, their metadata and the other sessions are left alone. *)
Definition ust_frame (w w' : World) : Prop :=
  primary_db w' = primary_db w ∧ secondary_db w' = secondary_db w ∧
  primary_meta w' = primary_meta w ∧ secondary_meta w' = secondary_meta w ∧
  sessions w' = sessions w.

(** What one round of the loop leaves alone: the source, the committed
    destination rows, the other sessions, and in the batch session the
    pending tracking writes and the pending rows of the other tables. *)
Definition steady (s : nat) (t : string) (w0 w : World) : Prop :=
  primary_db w = primary_db w0 ∧
  (∀ t', dest_rows w t' = dest_rows w0 t') ∧
  (∀ k, k ≠ s → sessions w !! k = sessions w0 !! k) ∧
  p_tracking (pending_of s w) = p_tracking (pending_of s w0) ∧
  (∀ t', t' ≠ t → p_tables (pending_of s w) !! t' = p_tables (pending_of s w0) !! t').

(** What the loop leaves alone: as [steady], for a list of tables. *)
Definition batch_steady (s : nat) (names : list string) (w0 w : World) : Prop :=
  primary_db w = primary_db w0 ∧
  (∀ t, dest_rows w t = dest_rows w0 t) ∧
  (∀ k, k ≠ s → sessions w !! k = sessions w0 !! k) ∧
  p_tracking (pending_of s w) = p_tracking (pending_of s w0) ∧
  (∀ t, t ∉ names → p_tables (pending_of s w) !! t = p_tables (pending_of s w0) !! t).

(** The state in which the tracking updates of the log have their records
    and the batch session [s] has no pending write to the tracking table. *)
Definition tracked_apart (s : nat) (w : World) : Prop :=
  tracked w ∧ p_tracking (pending_of s w) = None.

(** An environment in which only the round trips on the tracking table that
    stand inside a [try] can fail: those of the tracking upsert and the
    select of the first-run test. *)
Definition data_faults_free (faults : Site → nat → bool) : Prop :=
  ∀ site n, faults site n = true → tracking_site site = true.

(** The tracking table is known to the metadata and the metadata of the
    mirrored tables is not stale. *)
Definition ready (w : World) : Prop :=
  tracking_meta w = true ∧ meta_ok w.

(** One table on its way through the loop: the source is as it was,
    the tracking table is known and the destination table exists. *)
Definition going (pdb : gmap string (list Row)) (t : string) (w : World) : Prop :=
  primary_db w = pdb ∧ tracking_meta w = true ∧ meta_ok w ∧ is_Some (secondary_db w !! t).

(** A table that the source does not have stays unknown to the primary
    metadata. *)
Definition unknown (t : string) (w : World) : Prop :=
  primary_db w !! t = None ∧ t ∉ primary_meta w.

(** The bootstrap has not reported a later run. *)
Definition quiet_so_far (w : World) : Prop := LogInfo MsgNotFirstRun ∉ logs w.

(** Until the first-run test is made the bootstrap does not touch the
    mirrored tables of the destination. *)
Definition untouched (X : gmap string (list Row)) (w : World) : Prop :=
  secondary_db w = X ∧ quiet_so_far w.

(** The upsert went through: the success line is what it logged. *)
Definition upsert_ok (name : string) (w w' : World) : Prop :=
  logs w' = logs w ++ [LogInfo (MsgTrackingUpdated name)].

(** [history faults name w0 n last w]: [w] is reached from [w0] by calls of
    [update_sync_tracking], of which [n] were successful upserts of [name],
    the most recent of them having taken the timestamp [last]; calls for
    [name] that failed and calls for other tables come in between. *)
Inductive history (faults : Site → nat → bool) (name : string) (w0 : World) :
    nat → option nat → World → Prop :=
| hist_start : history faults name w0 0 None w0
| hist_sync n last w :
    history faults name w0 n last w →
    upsert_ok name w (update_sync_tracking faults name w).2 →
    history faults name w0 (S n) (Some (clock w)) (update_sync_tracking faults name w).2
| hist_failed n last w :
    history faults name w0 n last w →
    ¬ upsert_ok name w (update_sync_tracking faults name w).2 →
    history faults name w0 n last (update_sync_tracking faults name w).2
| hist_other n last w name' :
    name' ≠ name →
    history faults name w0 n last w →
    history faults name w0 n last (update_sync_tracking faults name' w).2.

(** The tracking table, when it exists, has one record per name at most. *)
Definition one_per_name_db (w : World) : Prop :=
  ∀ recs, tracking_db w = Some recs → one_per_name recs.

(** The same, the batch session [s] having no pending write to the tracking
    table. *)
Definition singled_apart (s : nat) (w : World) : Prop :=
  one_per_name_db w ∧ p_tracking (pending_of s w) = None.

(** What a one-table batch needs of the destination to go through: a table
    that the secondary metadata knows exists, and the tracking table is
    known or can be reflected. *)
Definition fit (t : string) (w : World) : Prop :=
  (t ∈ secondary_meta w → is_Some (secondary_db w !! t)) ∧
  (tracking_meta w = true ∨ is_Some (tracking_db w)).

(** The metadata knows a destination table that does not exist. *)
Definition stale (t : string) (w : World) : Prop :=
  t ∈ secondary_meta w ∧ secondary_db w !! t = None.

(** The tracking table is neither known nor there. *)
Definition untracked (w : World) : Prop :=
  tracking_meta w = false ∧ tracking_db w = None.

(** As [going], for one table. *)
Definition going_alone (pdb : gmap string (list Row)) (t : string) (w : World) : Prop :=
  primary_db w = pdb ∧ (tracking_meta w = true ∨ is_Some (tracking_db w)) ∧
  is_Some (secondary_db w !! t).

(** ** Example worlds *)

(** Two rows of a table with the columns [id] and [name]. *)
Definition row_a : Row := [("id", VInt 1); ("name", VText "a")].
Definition row_b : Row := [("id", VInt 2); ("name", VText "b")].

(** Destination tables with the columns and the types of the source
    tables: they store the rows as they are. *)
Definition as_source : string → Row → Row := λ _ row, row.

(** A destination that lags behind its source, in a process whose tracking
    table exists and is empty. *)
Definition lagging : World :=
  mkWorld {["A" := [row_a; row_b]; "B" := [row_b]]}
          {["A" := [row_b]; "B" := []]} as_source
          (Some []) 0 ∅ ∅ true ∅ 100 0 [].

(** The insert into the second table fails. *)
Definition insert_fails : Site → nat → bool :=
  λ s n, match s with sync_insert => Nat.eqb n 15 | _ => false end.

(** A tracking record left by an earlier run. *)
Definition old_record : TrackRec := mkTrackRec 1 "A" 7.

(** Destination tables whose columns are text columns: a number is stored
    as its text. *)
Definition as_text : string → Row → Row :=
  λ _ row, map (λ cv, (cv.1, match cv.2 with VInt z => VText (pretty z) | v => v end)) row.

(** The lagging destination, its tables having been created by other hands
    with text columns. *)
Definition retyped : World :=
  mkWorld {["A" := [row_a; row_b]; "B" := [row_b]]}
          {["A" := [[("id", VText "2"); ("name", VText "b")]]; "B" := []]} as_text
          (Some []) 0 ∅ ∅ true ∅ 100 0 [].

(** The lagging destination after an earlier run that tracked A. *)
Definition tracked_before : World :=
  mkWorld {["A" := [row_a; row_b]; "B" := [row_b]]}
          {["A" := [row_b]; "B" := []]} as_source
          (Some [old_record]) 1 ∅ ∅ true ∅ 100 0 [].

(** Every round trip on the tracking table that stands inside a [try]
    fails. *)
Definition tracking_fails : Site → nat → bool := λ s _, tracking_site s.

(** The reflection of the tracking table in [is_first_run] fails. *)
Definition reflection_fails : Site → nat → bool :=
  λ s _, match s with first_run_reflect => true | _ => false end.

(** A process that has loaded no metadata, as one that imports the module
    and calls its functions, on a destination without tracking table. *)
Definition unprepared : World :=
  boot_world {["A" := [row_a; row_b]; "B" := [row_b]]}
             {["A" := [row_b]; "B" := []]} as_source None 0 100.

(** The same process on a destination whose tracking table is there, empty. *)
Definition unregistered : World :=
  boot_world {["A" := [row_a; row_b]; "B" := [row_b]]}
             {["A" := [row_b]; "B" := []]} as_source (Some []) 0 100.

(** ** What the further properties speak about *)

(** How a hook for the table [t], called in [w], ends: it returns, the
    sessions and the source are as before, and either the batch of the one
    table was committed, the destination table then holding the rows of the
    source as it stores them and every other table its old rows, or it was
    rolled back and every destination table has its old rows. *)
Definition hook_outcome (t : string) (w : World) (r : Result unit * World) : Prop :=
  r.1 = Ok tt ∧ sessions r.2 = sessions w ∧ primary_db r.2 = primary_db w ∧
  ((committed [t] r.2 ∧
    secondary_db r.2 !! t = map (secondary_stores w t) <$> primary_db w !! t ∧
    is_Some (primary_db w !! t) ∧ ∀ t', t' ≠ t → dest_rows r.2 t' = dest_rows w t') ∨
   (∃ e, rolled_back [t] e r.2 ∧ ∀ t', dest_rows r.2 t' = dest_rows w t')).

(** The line that the bootstrap logs for a requested table, [known] being
    the tables of the primary metadata. *)
Definition setup_line (known : gset string) (t : string) : LogLine :=
  if bool_decide (t ∈ known) then LogInfo (MsgSettingUp t) else LogError (MsgNotInPrimary t).

(** An empty destination; the primary metadata knows the table C. *)
Definition bare : World :=
  mkWorld {["A" := [row_a]; "C" := [row_b]]} ∅ as_source (Some []) 0 {["C"]} ∅ true ∅ 100 0 [].


(** [upserted names recs recs']: the tracking records [recs'] are what
    successful upserts for the tables [names] make of [recs].  Each of
    these tables has a record, no record is lost, the records of the other
    tables are what they were, and one record per name is kept. *)
Definition upserted (names : list string) (recs recs' : list TrackRec) : Prop :=
  (∀ t, t ∈ names → records_for t recs' ≠ []) ∧
  (∀ u, records_for u recs ≠ [] → records_for u recs' ≠ []) ∧
  (∀ u, u ∉ names → records_for u recs' = records_for u recs) ∧
  (one_per_name recs → one_per_name recs').

(** ** Reasoning about computations *)

Arguments set_secondary_db _ _ /.
Arguments set_tracking_db _ _ /.
Arguments set_tracking_seq _ _ /.
Arguments set_primary_meta _ _ /.
Arguments set_secondary_meta _ _ /.
Arguments set_tracking_meta _ _ /.
Arguments set_sessions _ _ /.
Arguments set_clock _ _ /.
Arguments set_ticks _ _ /.
Arguments set_logs _ _ /.

(** [wp m Q E w]: run from [w], [m] ends in a world satisfying [Q] when it
    returns and [E] when it raises. *)
Definition wp {A} (m : M A) (Q : A → World → Prop) (E : Exn → World → Prop)
    (w : World) : Prop :=
  match m w with
  | (Ok a, w') => Q a w'
  | (Raise e, w') => E e w'
  end.

(** [inv P m]: [m] keeps [P], however it ends. *)
Definition inv {A} (P : World → Prop) (m : M A) : Prop :=
  ∀ w, P w → P (m w).2.

Lemma wp_ret {A} (a : A) Q E w : Q a w → wp (ret a) Q E w.
Proof. done. Qed.
Lemma wp_raise {A} e (Q : A → World → Prop) E w : E e w → wp (raise e) Q E w.
Proof. done. Qed.
Lemma wp_get Q E w : Q w w → wp get Q E w.
Proof. done. Qed.
Lemma wp_modify f Q E w : Q tt (f w) → wp (modify f) Q E w.
Proof. done. Qed.
Lemma wp_bind {A B} (m : M A) (k : A → M B) Q E w :
  wp m (λ a, wp (k a) Q E) E w → wp (m ≫= k) Q E w.
Proof. unfold wp, mbind, M_bind, bind. by destruct (m w) as [[a|e] w1]. Qed.
Lemma wp_try_except {A} (m : M A) h Q E w :
  wp m Q (λ e, wp (h e) Q E) w → wp (try_except m h) Q E w.
Proof. unfold wp, try_except. by destruct (m w) as [[a|e] w1]. Qed.
Lemma wp_try_finally {A} (m : M A) c Q E w :
  wp m (λ a, wp c (λ _, Q a) E) (λ e, wp c (λ _, E e) E) w →
  wp (try_finally m c) Q E w.
Proof.
  unfold wp, try_finally.
  destruct (m w) as [[a|e] w1]; by destruct (c w1) as [[[]|e'] w2].
Qed.
Lemma wp_conseq {A} (m : M A) (Q Q' : A → World → Prop) (E E' : Exn → World → Prop) w :
  wp m Q' E' w → (∀ a w', Q' a w' → Q a w') → (∀ e w', E' e w' → E e w') →
  wp m Q E w.
Proof. unfold wp. destruct (m w) as [[a|e] w1]; auto. Qed.
Lemma wp_and {A} (m : M A) (Q Q' : A → World → Prop) (E E' : Exn → World → Prop) w :
  wp m Q E w → wp m Q' E' w →
  wp m (λ a w', Q a w' ∧ Q' a w') (λ e w', E e w' ∧ E' e w') w.
Proof. unfold wp. by destruct (m w) as [[a|e] w1]. Qed.
Lemma wp_inv {A} (m : M A) P w : inv P m → P w → wp m (λ _, P) (λ _, P) w.
Proof. intros Hm HP. specialize (Hm w HP). unfold wp. by destruct (m w) as [[a|e] w1]. Qed.
Lemma wp_run {A} (m : M A) Q E w r w' : wp m Q E w → m w = (r, w') →
  match r with Ok a => Q a w' | Raise e => E e w' end.
Proof. unfold wp. intros H Heq. rewrite Heq in H. by destruct r. Qed.
Lemma wp_logger_info m Q E w :
  Q tt (set_logs (logs w ++ [LogInfo m]) w) → wp (logger_info m) Q E w.
Proof. done. Qed.
Lemma wp_logger_error m Q E w :
  Q tt (set_logs (logs w ++ [LogError m]) w) → wp (logger_error m) Q E w.
Proof. done. Qed.
Lemma wp_utcnow Q E w : Q (clock w) (set_clock (S (clock w)) w) → wp utcnow Q E w.
Proof. done. Qed.
Lemma wp_new_session Q E w :
  (∀ sid, sessions w !! sid = None →
          Q sid (set_sessions (<[sid := no_pending]> (sessions w)) w)) →
  wp new_session Q E w.
Proof. intros H. apply H. apply not_elem_of_dom, is_fresh. Qed.

Lemma inv_ret {A} P (a : A) : inv P (ret a).
Proof. by intros w HP. Qed.
Lemma inv_raise {A} P e : inv P (raise (A:=A) e).
Proof. by intros w HP. Qed.
Lemma inv_get P : inv P get.
Proof. by intros w HP. Qed.
Lemma inv_modify P f : (∀ w, P w → P (f w)) → inv P (modify f).
Proof. intros Hf w HP. by apply Hf. Qed.
Lemma inv_bind {A B} P (m : M A) (k : A → M B) :
  inv P m → (∀ a, inv P (k a)) → inv P (m ≫= k).
Proof.
  intros Hm Hk w HP. unfold mbind, M_bind, bind.
  specialize (Hm w HP). destruct (m w) as [[a|e] w1]; simpl in *; [by apply Hk | done].
Qed.
Lemma inv_try_except {A} P (m : M A) h :
  inv P m → (∀ e, inv P (h e)) → inv P (try_except m h).
Proof.
  intros Hm Hh w HP. unfold try_except.
  specialize (Hm w HP). destruct (m w) as [[a|e] w1]; simpl in *; [done | by apply Hh].
Qed.
Lemma inv_try_finally {A} P (m : M A) c :
  inv P m → inv P c → inv P (try_finally m c).
Proof.
  intros Hm Hc w HP. unfold try_finally.
  specialize (Hm w HP). destruct (m w) as [r w1]; simpl in *.
  specialize (Hc w1 Hm). by destruct (c w1) as [[[]|e] w2].
Qed.
Lemma inv_for_each {A} P (xs : list A) body :
  (∀ x, inv P (body x)) → inv P (for_each xs body).
Proof.
  intros Hb. induction xs as [|x xs IH]; simpl; [apply inv_ret|].
  apply inv_bind; auto.
Qed.
Lemma inv_utcnow P : (∀ w n, P w → P (set_clock n w)) → inv P utcnow.
Proof. intros H w HP. by apply H. Qed.
Lemma inv_new_session P :
  (∀ w sid, sessions w !! sid = None → P w →
            P (set_sessions (<[sid := no_pending]> (sessions w)) w)) →
  inv P new_session.
Proof. intros H w HP. apply H; [|done]. apply not_elem_of_dom, is_fresh. Qed.

Section Rules.
Context (faults : Site → nat → bool).

Lemma wp_io s Q E w :
  (faults s (ticks w) = true → E (OperationalError s) (set_ticks (S (ticks w)) w)) →
  (faults s (ticks w) = false → Q tt (set_ticks (S (ticks w)) w)) →
  wp (io faults s) Q E w.
Proof. unfold wp, io. destruct (faults s (ticks w)); auto. Qed.

Lemma inv_io P s : (∀ w n, P w → P (set_ticks n w)) → inv P (io faults s).
Proof. intros H w HP. unfold io. destruct (faults s (ticks w)); by apply H. Qed.

End Rules.

(** Symbolic execution, one statement at a time. *)
Ltac wp_step :=
  lazymatch goal with
  | |- wp (_ ≫= _) _ _ _ => apply wp_bind
  | |- wp (mret _) _ _ _ => apply wp_ret
  | |- wp (ret _) _ _ _ => apply wp_ret
  | |- wp (raise _) _ _ _ => apply wp_raise
  | |- wp get _ _ _ => apply wp_get
  | |- wp (modify _) _ _ _ => apply wp_modify
  | |- wp (logger_info _) _ _ _ => apply wp_logger_info
  | |- wp (logger_error _) _ _ _ => apply wp_logger_error
  | |- wp utcnow _ _ _ => apply wp_utcnow
  | |- wp (try_except _ _) _ _ _ => apply wp_try_except
  | |- wp (try_finally _ _) _ _ _ => apply wp_try_finally
  | |- wp (io _ _) _ _ _ => apply wp_io; intros ?
  | |- wp new_session _ _ _ => apply wp_new_session; intros ? ?
  | |- wp SecondarySession _ _ _ => apply wp_new_session; intros ? ?
  | |- wp PrimarySession _ _ _ => apply wp_new_session; intros ? ?
  | |- wp (if ?b then _ else _) _ _ _ => destruct b eqn:?
  | |- wp (match ?x with _ => _ end) _ _ _ => destruct x eqn:?
  | |- wp (session_close _) _ _ _ => unfold session_close
  | |- wp (session_rollback _) _ _ _ => unfold session_rollback
  | |- wp (session_commit _ _ _) _ _ _ => unfold session_commit
  | |- wp (tracking_Table _ _) _ _ _ => unfold tracking_Table
  | |- wp (primary_Table _ _ _) _ _ _ => unfold primary_Table
  | |- wp (secondary_Table _ _ _) _ _ _ => unfold secondary_Table
  | |- wp (create_all _) _ _ _ => unfold create_all
  | |- wp (create_table_if_not_exists _ _) _ _ _ => unfold create_table_if_not_exists
  | |- wp (create_sync_tracking_table _) _ _ _ => unfold create_sync_tracking_table
  | |- wp (primary_reflect _) _ _ _ => unfold primary_reflect
  | |- wp (secondary_reflect _) _ _ _ => unfold secondary_reflect
  | |- wp (primary_select _ _ _ _) _ _ _ => unfold primary_select
  | |- wp (secondary_delete _ _ _ _) _ _ _ => unfold secondary_delete
  | |- wp (secondary_insert _ _ _ _ _) _ _ _ => unfold secondary_insert
  | |- wp (tracking_select_all _ _ _) _ _ _ => unfold tracking_select_all
  | |- wp (tracking_select_where _ _ _ _) _ _ _ => unfold tracking_select_where
  | |- wp (tracking_update _ _ _ _ _) _ _ _ => unfold tracking_update
  | |- wp (tracking_insert _ _ _ _ _) _ _ _ => unfold tracking_insert
  end; simpl.
Ltac wp_go := repeat wp_step.

(** Invariants, by the structure of the computation. *)
Ltac inv_step :=
  lazymatch goal with
  | |- inv _ (_ ≫= _) => apply inv_bind; [|intros ?]
  | |- inv _ (mret _) => apply inv_ret
  | |- inv _ (ret _) => apply inv_ret
  | |- inv _ (raise _) => apply inv_raise
  | |- inv _ get => apply inv_get
  | |- inv _ (modify _) => apply inv_modify; intros ? ?
  | |- inv _ (logger_info _) => apply inv_modify; intros ? ?
  | |- inv _ (logger_error _) => apply inv_modify; intros ? ?
  | |- inv _ utcnow => apply inv_utcnow; intros ? ? ?
  | |- inv _ (io _ _) => apply inv_io; intros ? ? ?
  | |- inv _ (try_except _ _) => apply inv_try_except; [|intros ?]
  | |- inv _ (try_finally _ _) => apply inv_try_finally
  | |- inv _ (for_each _ _) => apply inv_for_each; intros ?
  | |- inv _ new_session => apply inv_new_session; intros ? ? ? ?
  | |- inv _ SecondarySession => apply inv_new_session; intros ? ? ? ?
  | |- inv _ PrimarySession => apply inv_new_session; intros ? ? ? ?
  | |- inv _ (if ?b then _ else _) => destruct b
  | |- inv _ (match ?x with _ => _ end) => destruct x
  | |- inv _ (session_close _) => unfold session_close
  | |- inv _ (session_rollback _) => unfold session_rollback
  | |- inv _ (session_commit _ _ _) => unfold session_commit
  | |- inv _ (tracking_Table _ _) => unfold tracking_Table
  | |- inv _ (primary_Table _ _ _) => unfold primary_Table
  | |- inv _ (secondary_Table _ _ _) => unfold secondary_Table
  | |- inv _ (create_all _) => unfold create_all
  | |- inv _ (create_table_if_not_exists _ _) => unfold create_table_if_not_exists
  | |- inv _ (create_sync_tracking_table _) => unfold create_sync_tracking_table
  | |- inv _ (primary_reflect _) => unfold primary_reflect
  | |- inv _ (secondary_reflect _) => unfold secondary_reflect
  | |- inv _ (primary_select _ _ _ _) => unfold primary_select
  | |- inv _ (secondary_delete _ _ _ _) => unfold secondary_delete
  | |- inv _ (secondary_insert _ _ _ _ _) => unfold secondary_insert
  | |- inv _ (tracking_select_all _ _ _) => unfold tracking_select_all
  | |- inv _ (tracking_select_where _ _ _ _) => unfold tracking_select_where
  | |- inv _ (tracking_update _ _ _ _ _) => unfold tracking_update
  | |- inv _ (tracking_insert _ _ _ _ _) => unfold tracking_insert
  end.
Ltac inv_go := repeat inv_step.

(** ** Sessions *)

Lemma sessions_restore (ss m : gmap nat Pending) sid :
  ss !! sid = None → (∀ k, k ≠ sid → m !! k = ss !! k) → delete sid m = ss.
Proof.
  intros Hn Hm. apply map_eq. intros k. destruct (decide (k = sid)) as [->|Hk].
  - by rewrite lookup_delete_eq.
  - rewrite lookup_delete_ne by done. by apply Hm.
Qed.

Ltac sess_tac :=
  lazymatch goal with
  | |- delete ?sid _ = _ => apply sessions_restore; [done|]; intros; by simplify_map_eq
  end.

Ltac unfold_session :=
  unfold tracking_view, view, set_pending_tracking, set_pending_table, pending_of in *;
  simpl in *; rewrite ?lookup_insert_eq in *; simpl in *; simplify_eq/=;
  rewrite ?lookup_insert_eq in *; simpl in *; simplify_eq/=.

Section Tracking.
Context (faults : Site → nat → bool).

Lemma ust_spec name w :
  wp (update_sync_tracking faults name)
    (λ _ w', ust_frame w w' ∧ tracking_meta w' = true ∧
       ((∃ recs, tracking_db w = Some recs ∧
           tracking_db w' = Some (upsert name (clock w) (S (tracking_seq w)) recs) ∧
           logs w' = logs w ++ [LogInfo (MsgTrackingUpdated name)]) ∨
        (∃ e, tracking_db w' = tracking_db w ∧
           logs w' = logs w ++ [LogError (MsgTrackingFailed name e)])))
    (λ e w', ust_frame w w' ∧ tracking_db w' = tracking_db w ∧ logs w' = logs w ∧
       tracking_meta w = false ∧ tracking_meta w' = false ∧
       (tracking_db w = None ∨ faults track_reflect (ticks w) = true))
    w.
Proof.
  unfold update_sync_tracking, ust_frame. wp_go.
  all: unfold_session; rewrite ?(left_id_L ∅ (∪)).
  all: try by (repeat split; try done; try sess_tac; try (right; eauto)).
  all: repeat split; try done; try sess_tac.
  all: left; eexists; repeat split; try done.
  all: unfold upsert, records_for.
  all: match goal with H : head _ = _ |- _ => by rewrite H end.
Qed.

Lemma is_first_run_spec w :
  wp (is_first_run faults)
    (λ b w', sessions w' = sessions w ∧ secondary_db w' = secondary_db w ∧
       tracking_db w' = tracking_db w ∧ primary_db w' = primary_db w ∧
       secondary_meta w' = secondary_meta w ∧
       tracking_meta w' = true ∧
       ∀ n, (if tracking_meta w then n = ticks w else n = S (ticks w)) →
       b = match tracking_db w with
           | Some (_ :: _) => faults first_run_select n
           | _ => true
           end)
    (λ e w', sessions w' = sessions w ∧ secondary_db w' = secondary_db w ∧
       tracking_db w' = tracking_db w ∧ primary_db w' = primary_db w ∧
       tracking_meta w = false ∧ tracking_meta w' = false)
    w.
Proof.
  unfold is_first_run. wp_go.
  all: unfold_session.
  all: try by (repeat split; try done; try sess_tac).
  all: repeat split; try done; try sess_tac.
  all: intros n ->.
  all: repeat match goal with H : tracking_db _ = _ |- _ => rewrite H in * end; simplify_eq/=.
  all: try done.
  all: repeat case_match; simplify_eq/=; congruence.
Qed.
End Tracking.

(** ** The upsert on the list of tracking records *)

Lemma has_name_touch name' name now r :
  has_name name' (touch name now r) = has_name name' r.
Proof. unfold touch. by destruct (has_name name r). Qed.

Lemma records_for_touch name' name now recs :
  records_for name' (map (touch name now) recs) =
  map (touch name now) (records_for name' recs).
Proof.
  unfold records_for. induction recs as [|r recs IH]; [done|]. simpl.
  rewrite !filter_cons, has_name_touch.
  destruct (decide (has_name name' r = true)); simpl; by rewrite IH.
Qed.

Lemma records_for_app name recs recs' :
  records_for name (recs ++ recs') = records_for name recs ++ records_for name recs'.
Proof. apply filter_app. Qed.

Lemma records_for_new name' name id now :
  records_for name' [mkTrackRec id name now] =
  if decide (name = name') then [mkTrackRec id name now] else [].
Proof.
  unfold records_for. rewrite filter_cons, filter_nil. unfold has_name. simpl.
  destruct (decide (name = name')) as [->|Hne].
  - by rewrite bool_decide_eq_true_2.
  - by rewrite bool_decide_eq_false_2.
Qed.

Lemma touch_other name' name now recs :
  name' ≠ name → map (touch name now) (records_for name' recs) = records_for name' recs.
Proof.
  intros Hne. unfold records_for. induction recs as [|r recs IH]; [done|].
  rewrite filter_cons. destruct (decide (has_name name' r = true)) as [Hr|Hr]; [|done].
  simpl. rewrite IH. f_equal. unfold touch, has_name in *.
  apply bool_decide_eq_true_1 in Hr. rewrite bool_decide_eq_false_2; [done|congruence].
Qed.

Lemma upsert_other name' name now id recs :
  name' ≠ name → records_for name' (upsert name now id recs) = records_for name' recs.
Proof.
  intros Hne. unfold upsert. destruct (head (records_for name recs)).
  - by rewrite records_for_touch, touch_other.
  - rewrite records_for_app, records_for_new.
    destruct (decide (name = name')); [congruence|]. apply app_nil_r.
Qed.

Lemma upsert_same name now id recs :
  length (records_for name recs) ≤ 1 →
  ∃ r, records_for name (upsert name now id recs) = [r] ∧
       tr_table_name r = name ∧ tr_last_synced_at r = now.
Proof.
  intros Hlen. unfold upsert. destruct (records_for name recs) as [|r0 rest] eqn:Hrecs; simpl.
  - rewrite records_for_app, Hrecs, records_for_new. rewrite decide_True by done.
    by eexists.
  - destruct rest; [|simpl in Hlen; lia].
    rewrite records_for_touch, Hrecs. simpl.
    assert (Hr0 : has_name name r0 = true).
    { assert (Hin : r0 ∈ records_for name recs) by (rewrite Hrecs; left).
      unfold records_for in Hin. by apply list_elem_of_filter in Hin as [? _]. }
    unfold touch. rewrite Hr0. eexists. split; [done|]. simpl. split; [|done].
    unfold has_name in Hr0. by apply bool_decide_eq_true_1 in Hr0.
Qed.

Lemma upsert_one_per_name name now id recs :
  one_per_name recs → one_per_name (upsert name now id recs).
Proof.
  intros Hone name'. destruct (decide (name' = name)) as [->|Hne].
  - destruct (upsert_same name now id recs (Hone name)) as (r & -> & _). done.
  - rewrite upsert_other by done. apply Hone.
Qed.

Lemma upsert_keeps t name now id recs :
  records_for t recs ≠ [] → records_for t (upsert name now id recs) ≠ [].
Proof.
  intros Hne. unfold upsert. destruct (head (records_for name recs)).
  - rewrite records_for_touch. by destruct (records_for t recs).
  - rewrite records_for_app. by destruct (records_for t recs).
Qed.

Lemma upsert_has name now id recs : records_for name (upsert name now id recs) ≠ [].
Proof.
  unfold upsert. destruct (head (records_for name recs)) eqn:Hd.
  - rewrite records_for_touch. by destruct (records_for name recs).
  - rewrite records_for_app, records_for_new, decide_True by done.
    by destruct (records_for name recs).
Qed.

(** ** One table of the batch *)

Lemma dest_rows_create_all (sdb : gmap string (list Row)) (pm : gset string) t :
  default [] ((sdb ∪ gset_to_gmap [] pm) !! t) = default [] (sdb !! t).
Proof.
  rewrite lookup_union. destruct (sdb !! t) as [rows|] eqn:Hs; simpl.
  - by rewrite (left_id_L None _) || destruct (gset_to_gmap [] pm !! t).
  - rewrite lookup_gset_to_gmap. by destruct (decide (t ∈ pm)); simpl;
      rewrite ?option_guard_True, ?option_guard_False by done.
Qed.

Ltac steady_leaf :=
  lazymatch goal with
  | H : steady _ _ _ _ |- _ =>
      destruct H as (?&?&?&?&?); unfold steady, dest_rows, set_pending_table, pending_of in *;
      simpl in *; rewrite ?lookup_insert_eq; simpl;
      repeat split; intros; rewrite ?dest_rows_create_all, ?lookup_insert_ne by done; auto
  end.

Lemma wp_seq_inv {A B} (m : M A) (k : A → M B) (P : World → Prop) Q E w :
  inv P m → P w → (∀ a w', P w' → wp (k a) Q E w') → (∀ e w', P w' → E e w') →
  wp (m ≫= k) Q E w.
Proof.
  intros Hm HP Hk HE. apply wp_bind.
  eapply wp_conseq; [by apply wp_inv| |]; simpl; eauto.
Qed.

Section SyncOne.
Context (faults : Site → nat → bool).

Lemma ust_frame_run name w : ust_frame w (update_sync_tracking faults name w).2.
Proof.
  pose proof (ust_spec faults name w) as H. unfold wp in H.
  destruct (update_sync_tracking faults name w) as [[[]|e] w']; simpl; tauto.
Qed.

Lemma inv_ust P name :
  (∀ w w', ust_frame w w' → P w → P w') → inv P (update_sync_tracking faults name).
Proof. intros H w HP. eapply H; [apply ust_frame_run|done]. Qed.

Lemma steady_refl s t w : steady s t w w.
Proof. by repeat split. Qed.

Lemma steady_ust_frame s t w0 w w' :
  ust_frame w w' → steady s t w0 w → steady s t w0 w'.
Proof.
  intros (Hp & Hs & _ & _ & Hss) Hst.
  unfold steady, dest_rows, pending_of in *. by rewrite Hp, Hs, Hss.
Qed.

Lemma sync_one_steady p s t w0 : inv (steady s t w0) (sync_one faults p s t).
Proof.
  unfold sync_one. inv_go.
  all: try steady_leaf.
  apply inv_ust. intros w w'. apply steady_ust_frame.
Qed.

(** The inserts of one table, in the order of the source rows. *)
Lemma insert_loop s t sto rows : ∀ cur w,
  secondary_stores w = sto →
  p_tables (pending_of s w) !! t = Some cur →
  wp (for_each rows (λ row, secondary_insert faults sync_insert s t row))
     (λ _ w', p_tables (pending_of s w') !! t = Some (cur ++ map (sto t) rows))
     (λ _ _, True) w.
Proof.
  induction rows as [|row rows IH]; intros cur w Hsto Hcur; simpl.
  - apply wp_ret. by rewrite app_nil_r.
  - wp_go; try done.
    + eapply wp_conseq; [apply (IH (cur ++ [sto t row]))| |done].
      * done.
      * unfold view, set_pending_table, pending_of in *; simpl in *.
        rewrite Hcur in *. simplify_eq. rewrite lookup_insert_eq. simpl.
        by rewrite lookup_insert_eq.
      * intros _ w' ->. by rewrite <- app_assoc.
Qed.

Lemma sync_one_overlay p s t w :
  wp (sync_one faults p s t)
     (λ _ w', p_tables (pending_of s w') !! t =
                map (secondary_stores w t) <$> primary_db w !! t ∧
              is_Some (primary_db w !! t))
     (λ _ _, True) w.
Proof.
  assert (Hw : primary_db w = primary_db w ∧ secondary_stores w = secondary_stores w) by done.
  revert Hw. generalize (primary_db w) at 2 3 4 as pdb.
  generalize (secondary_stores w) at 2 3 as sto. intros sto pdb Hw.
  unfold sync_one.
  do 3 (apply wp_seq_inv with (P := λ w', primary_db w' = pdb ∧ secondary_stores w' = sto);
        [inv_go; done | done | clear w Hw; intros _ w Hw | done]).
  destruct Hw as [Hw Hsto]. wp_go; try done.
  eapply wp_conseq; [apply (insert_loop _ _ sto _ [])| |done].
  { done. }
  { unfold set_pending_table, pending_of. simpl. rewrite lookup_insert_eq. simpl.
    by rewrite lookup_insert_eq. }
  intros [] w2 H2. simpl.
  pose proof (ust_frame_run t w2) as (_ & _ & _ & _ & Hss).
  unfold wp. destruct (update_sync_tracking faults t w2) as [[[]|e] w3]; [|done].
  simpl in *. unfold pending_of in *. rewrite Hss, H2. rewrite <- Hw. by rewrite Heqo.
Qed.

(** How the destination tables store their rows is not the program's to
    change. *)
Lemma sync_one_stores p s t sto :
  inv (λ w, secondary_stores w = sto) (sync_one faults p s t).
Proof. unfold sync_one, update_sync_tracking. inv_go; done. Qed.
End SyncOne.

(** ** The whole batch *)

Lemma sessions_restore2 (ss m : gmap nat Pending) p s :
  ss !! p = None → ss !! s = None →
  (∀ k, k ≠ s → k ≠ p → m !! k = ss !! k) → delete s (delete p m) = ss.
Proof.
  intros Hp Hs Hm. apply map_eq. intros k.
  destruct (decide (k = s)) as [->|Hks]; [by rewrite lookup_delete_eq|].
  rewrite lookup_delete_ne by done.
  destruct (decide (k = p)) as [->|Hkp]; [by rewrite lookup_delete_eq|].
  rewrite lookup_delete_ne by done. by apply Hm.
Qed.

Lemma steady_batch_cons s t names w0 w1 w2 :
  steady s t w0 w1 → batch_steady s names w1 w2 → batch_steady s (t :: names) w0 w2.
Proof.
  intros (Hp1 & Hd1 & Hs1 & Ht1 & Ho1) (Hp2 & Hd2 & Hs2 & Ht2 & Ho2).
  split; [congruence|]. split; [intros; by rewrite Hd2|].
  split; [intros; by rewrite Hs2, Hs1|]. split; [congruence|].
  intros t' Ht'. apply not_elem_of_cons in Ht' as [Hne Hnin].
  by rewrite Ho2, Ho1.
Qed.

Lemma steady_batch_one s t names w0 w1 :
  steady s t w0 w1 → batch_steady s (t :: names) w0 w1.
Proof.
  intros Hst. eapply steady_batch_cons; [done|]. by repeat split.
Qed.

Section Batch.
Context (faults : Site → nat → bool).

Lemma batch_loop p s names : ∀ w,
  wp (for_each names (sync_one faults p s))
     (λ _ w', batch_steady s names w w' ∧
        ∀ t, t ∈ names →
          p_tables (pending_of s w') !! t =
            map (secondary_stores w t) <$> primary_db w !! t ∧
          is_Some (primary_db w !! t))
     (λ _ w', batch_steady s names w w') w.
Proof.
  induction names as [|t names IH]; intros w; simpl.
  - apply wp_ret. split; [by repeat split|]. intros t Ht. by apply elem_of_nil in Ht.
  - apply wp_bind. eapply wp_conseq.
    + apply wp_and; [apply (wp_inv _ _ _ (sync_one_steady faults p s t w)), steady_refl|].
      apply wp_and; [apply sync_one_overlay|].
      apply (wp_inv _ _ _ (sync_one_stores faults p s t (secondary_stores w))). done.
    + intros [] w1 [Hst [[Hov Hsome] Hsto]]. simpl.
      eapply wp_conseq; [apply IH| |].
      * intros [] w2 [Hbs Hov2]. split; [by eapply steady_batch_cons|].
        intros t' Ht'. destruct Hst as (Hp1 & _). destruct Hbs as (_ & _ & _ & _ & Ho2).
        destruct (decide (t' ∈ names)) as [Hin|Hnin].
        -- rewrite <- Hp1, <- Hsto. by apply Hov2.
        -- apply elem_of_cons in Ht' as [->|Ht']; [|done]. by rewrite Ho2.
      * intros e w2 Hbs. by eapply steady_batch_cons.
    + intros e w1 [Hst _]. simpl. by apply steady_batch_one.
Qed.

(** How a batch ends, in one statement: it returns, its sessions are
    closed, the source is as before, and either it was committed and the
    destination holds the source rows of its tables, or it was rolled back
    and every destination table has the rows it had. *)
Lemma batch_spec names w :
  wp (sync_table_changes faults names)
     (λ _ w', sessions w' = sessions w ∧ primary_db w' = primary_db w ∧
        ((committed names w' ∧
          (∀ t, t ∈ names →
             secondary_db w' !! t = map (secondary_stores w t) <$> primary_db w !! t ∧
             is_Some (primary_db w !! t)) ∧
          (∀ t, t ∉ names → dest_rows w' t = dest_rows w t)) ∨
         (∃ e, rolled_back names e w' ∧ ∀ t, dest_rows w' t = dest_rows w t)))
     (λ _ _, False) w.
Proof.
  unfold sync_table_changes. wp_go.
  rename sid into p, sid0 into s, H into Hp, H0 into Hs.
  simpl in Hs.
  assert (Hps : p ≠ s) by (intros ->; by rewrite lookup_insert_eq in Hs).
  rewrite lookup_insert_ne in Hs by done.
  assert (Hclose : ∀ (w3 : World) f,
    (∀ k, k ≠ s → sessions w3 !! k = <[s:=no_pending]> (<[p:=no_pending]> (sessions w)) !! k) →
    delete s (delete p (alter f s (sessions w3))) = sessions w).
  { intros w3 f Hs3. apply sessions_restore2; [done..|].
    intros k Hks Hkp. rewrite lookup_alter_ne by done. rewrite Hs3 by done.
    by rewrite !lookup_insert_ne. }
  eapply wp_conseq; [apply batch_loop| |].
  - intros [] w3 [(Hp3 & Hd3 & Hs3 & Ht3 & Ho3) Hov]. wp_go.
    + (* the commit fails *)
      unfold committed, rolled_back, dest_rows in *; simpl in *.
      split; [|split; [done|]].
      { by apply Hclose. }
      right. eexists. split; [apply last_snoc|]. done.
    + unfold committed, rolled_back, dest_rows in *; simpl in *.
      split; [|split; [done|]].
      { by apply Hclose. }
      left. split; [apply last_snoc|]. split.
      * intros t Ht. destruct (Hov t Ht) as [Hov1 Hsome]. split; [|done].
        unfold pending_of in *. simpl in *. rewrite <- Hov1.
        destruct Hsome as [rows Hrows]. rewrite Hrows in Hov1.
        by rewrite (lookup_union_Some_l _ _ _ _ Hov1).
      * intros t Ht. rewrite <- Hd3. f_equal.
        rewrite lookup_union_r; [done|]. unfold pending_of in *; simpl in *.
        rewrite (Ho3 t Ht). by rewrite lookup_insert_eq.
  - intros e w3 (Hp3 & Hd3 & Hs3 & Ht3 & Ho3). wp_go.
    unfold committed, rolled_back, dest_rows in *; simpl in *.
    split; [|split; [done|]].
    { by apply Hclose. }
    right. eexists. split; [apply last_snoc|]. done.
Qed.
End Batch.

(** ** Tracking records and the batch *)

Lemma tracked_log (w : World) line :
  (∀ t, line ≠ LogInfo (MsgTrackingUpdated t)) →
  tracked w → tracked (set_logs (logs w ++ [line]) w).
Proof.
  intros Hline Htr t Ht. simpl in *. apply elem_of_app in Ht as [Ht|Ht].
  - by apply Htr.
  - apply list_elem_of_singleton in Ht. by destruct (Hline t).
Qed.

Lemma p_tracking_alter (ss : gmap nat Pending) k s :
  p_tracking (default no_pending (ss !! s)) = None →
  p_tracking (default no_pending (alter (λ _, no_pending) k ss !! s)) = None.
Proof.
  intros H. destruct (decide (k = s)) as [->|Hne].
  - rewrite lookup_alter_eq. by destruct (ss !! s).
  - by rewrite lookup_alter_ne.
Qed.

Lemma p_tracking_delete (ss : gmap nat Pending) k s :
  p_tracking (default no_pending (ss !! s)) = None →
  p_tracking (default no_pending (delete k ss !! s)) = None.
Proof.
  intros H. destruct (decide (k = s)) as [->|Hne].
  - by rewrite lookup_delete_eq.
  - by rewrite lookup_delete_ne.
Qed.

Lemma tracked_same (w w' : World) line :
  tracking_db w' = tracking_db w → logs w' = logs w ++ [line] →
  (∀ t, line ≠ LogInfo (MsgTrackingUpdated t)) →
  tracked w → tracked w'.
Proof.
  intros Hdb Hlog Hline Htr t Ht. rewrite Hdb. rewrite Hlog in Ht.
  apply elem_of_app in Ht as [Ht|Ht]; [by apply Htr|].
  apply list_elem_of_singleton in Ht. by destruct (Hline t).
Qed.

Ltac tracked_leaf :=
  lazymatch goal with
  | H : tracked_apart _ _ |- _ =>
      let Htr := fresh "Htr" in let Hpt := fresh "Hpt" in
      destruct H as [Htr Hpt]; split;
      [ first [ by apply tracked_log | exact Htr
              | intros ? ?; simpl in *; unfold pending_of in Hpt; try rewrite Hpt; by apply Htr ]
      | unfold set_pending_table, pending_of in *; simpl in *;
        first [ done | by apply p_tracking_alter | by apply p_tracking_delete
              | by rewrite lookup_insert_eq ] ]
  end.

Lemma wp_post {A} (m : M A) (P : World → Prop) w :
  wp m (λ _, P) (λ _, P) w → P (m w).2.
Proof. unfold wp. by destruct (m w) as [[a|e] w']. Qed.

Section Tracked.
Context (faults : Site → nat → bool).

Lemma ust_tracked name w : tracked w → tracked (update_sync_tracking faults name w).2.
Proof.
  intros Htr. pose proof (ust_spec faults name w) as H. unfold wp in H.
  destruct (update_sync_tracking faults name w) as [[[]|e] w']; simpl.
  - destruct H as (_ & _ & [(recs & Hdb & Hdb' & Hlog)|(e & Hdb & Hlog)]); intros t Ht.
    + rewrite Hlog in Ht. rewrite Hdb'. eexists. split; [done|].
      apply elem_of_app in Ht as [Ht|Ht].
      * destruct (Htr t Ht) as (recs0 & Hrecs0 & Hne). simplify_eq.
        by apply upsert_keeps.
      * apply list_elem_of_singleton in Ht. simplify_eq. apply upsert_has.
    + rewrite Hlog in Ht. rewrite Hdb. apply elem_of_app in Ht as [Ht|Ht].
      * by apply Htr.
      * by apply list_elem_of_singleton in Ht.
  - destruct H as (_ & Hdb & Hlog & _). intros t Ht. rewrite Hdb. apply Htr. by rewrite <- Hlog.
Qed.

Lemma ust_tracked_apart s name : inv (tracked_apart s) (update_sync_tracking faults name).
Proof.
  intros w [Htr Hpt]. split; [by apply ust_tracked|].
  destruct (ust_frame_run faults name w) as (_ & _ & _ & _ & Hss).
  unfold pending_of in *. by rewrite Hss.
Qed.

Lemma batch_tracked names w :
  tracked w → tracked (sync_table_changes faults names w).2.
Proof.
  intros Htr. apply (wp_post _ tracked). unfold sync_table_changes.
  wp_go. rename sid into p, sid0 into s.
  eapply wp_conseq; [apply (wp_inv _ (tracked_apart s))| |].
  - unfold sync_one. inv_go.
    all: try tracked_leaf.
    apply ust_tracked_apart.
  - split; [done|]. unfold pending_of. simpl. by rewrite lookup_insert_eq.
  - intros [] w' [Htr' Hpt]. wp_go.
    + eapply tracked_same; [..|exact Htr']; simpl; done.
    + eapply tracked_same; [..|exact Htr']; simpl; try done.
      unfold pending_of in *. simpl. by rewrite Hpt.
  - intros e w' [Htr' Hpt]. wp_go.
    eapply tracked_same; [..|exact Htr']; simpl; done.
Qed.
End Tracked.

(** ** Batches that go through *)

Lemma wp_seq {A B} (m : M A) (k : A → M B) Q' E' Q E w :
  wp m Q' E' w → (∀ a w', Q' a w' → wp (k a) Q E w') → (∀ e w', E' e w' → E e w') →
  wp (m ≫= k) Q E w.
Proof. intros Hm Hk HE. apply wp_bind. eapply wp_conseq; [exact Hm| |]; eauto. Qed.

Section Progress.
Context (faults : Site → nat → bool).
Hypothesis Hff : data_faults_free faults.

Ltac nofault :=
  match goal with
  | H : faults ?s _ = true |- _ => apply Hff in H; simpl in H; discriminate
  end.

Lemma meta_ok_create_all (sdb : gmap string (list Row)) (sm pm : gset string) :
  (∀ t, t ∈ sm → is_Some (sdb !! t)) →
  ∀ t, t ∈ sm → is_Some ((sdb ∪ gset_to_gmap [] pm) !! t).
Proof.
  intros H t Ht. destruct (H t Ht) as [rows Hrows].
  exists rows. by apply lookup_union_Some_l.
Qed.

Lemma created_create_all (sdb : gmap string (list Row)) (pm : gset string) t :
  t ∈ pm → is_Some ((sdb ∪ gset_to_gmap [] pm) !! t).
Proof.
  intros Ht. destruct (sdb !! t) as [rows|] eqn:Hs.
  - exists rows. by apply lookup_union_Some_l.
  - exists []. rewrite lookup_union_r by done. by apply lookup_gset_to_gmap_Some.
Qed.

Lemma mirror_progress pdb t w :
  primary_db w = pdb → is_Some (pdb !! t) → ready w →
  wp (create_table_if_not_exists faults t) (λ _, going pdb t) (λ _ _, False) w.
Proof.
  intros Hp [rows Hrows] [Htm Hok]. unfold going, meta_ok in *. wp_go; try nofault.
  all: rewrite ?bool_decide_eq_true, ?bool_decide_eq_false in *.
  all: rewrite ?Hp in *; simplify_eq.
  all: repeat split; try done.
  all: try (by apply meta_ok_create_all).
  all: try (apply created_create_all; set_solver).
  by apply Hok.
Qed.

Lemma insert_loop_progress pdb s t rows : ∀ cur w,
  going pdb t w → p_tables (pending_of s w) !! t = Some cur →
  wp (for_each rows (λ row, secondary_insert faults sync_insert s t row))
     (λ _, going pdb t) (λ _ _, False) w.
Proof.
  induction rows as [|row rows IH]; intros cur w Hgo Hcur; simpl.
  - by apply wp_ret.
  - wp_go; try nofault.
    + eapply (IH (l ++ [_])).
      * done.
      * unfold set_pending_table, pending_of. simpl. rewrite lookup_insert_eq. simpl.
        by rewrite lookup_insert_eq.
    + unfold view, pending_of in *. simpl in *. by rewrite Hcur in *.
Qed.

Lemma sync_one_progress p s t w :
  ready w → is_Some (primary_db w !! t) →
  wp (sync_one faults p s t)
     (λ _ w', ready w' ∧ primary_db w' = primary_db w) (λ _ _, False) w.
Proof.
  intros Hready Hsome. unfold sync_one.
  eapply wp_seq; [by apply (mirror_progress (primary_db w))| |done].
  clear Hready. intros [] w1 (Hp & Htm & Hok & [srows Hsrows]). simpl.
  destruct Hsome as [prows Hprows]. rewrite <- Hp in Hprows.
  unfold meta_ok in *. wp_go; try nofault.
  all: rewrite ?bool_decide_eq_true, ?bool_decide_eq_false in *.
  all: try congruence.
  all: try (unfold view, pending_of in *; simpl in *; repeat case_match; congruence).
  all: eapply wp_conseq;
    [ eapply (insert_loop_progress (primary_db w) s t _ []);
      [ repeat split; simpl; try done
      | unfold set_pending_table, pending_of; simpl; rewrite lookup_insert_eq; simpl;
        by rewrite lookup_insert_eq ]
    | | done ].
  all: try (intros t' Ht'; apply elem_of_union in Ht' as [Ht'|Ht'];
            [apply elem_of_singleton in Ht' as ->; done | by apply Hok]).
  all: intros [] w2 (Hp2 & Htm2 & Hok2 & Hsec2); simpl.
  all: eapply wp_conseq; [apply ust_spec| |].
  all: try (intros [] w3 ((Hp3 & Hs3 & _ & Hm3 & _) & Htm3 & _); split; [|congruence];
            split; [done|]; unfold meta_ok; rewrite Hs3, Hm3; done).
  all: intros e w3 (_ & _ & _ & Hfalse & _); congruence.
Qed.

Lemma batch_progress p s names : ∀ w,
  ready w → (∀ t, t ∈ names → is_Some (primary_db w !! t)) →
  wp (for_each names (sync_one faults p s)) (λ _, ready) (λ _ _, False) w.
Proof.
  induction names as [|t names IH]; intros w Hready Hsome; simpl.
  - by apply wp_ret.
  - eapply wp_seq; [apply sync_one_progress; [done|]| |done].
    + apply Hsome. left.
    + intros [] w1 [Hready1 Hp1]. apply IH; [done|].
      intros t' Ht'. rewrite Hp1. apply Hsome. by right.
Qed.

End Progress.

Lemma wp_for_each_app {A} (xs ys : list A) body Q E w :
  wp (for_each xs body) (λ _, wp (for_each ys body) Q E) E w →
  wp (for_each (xs ++ ys) body) Q E w.
Proof.
  revert w. induction xs as [|x xs IH]; intros w; simpl.
  - done.
  - intros H. apply wp_bind. unfold wp in H at 1. unfold mbind, M_bind, bind in H.
    unfold wp at 1. destruct (body x w) as [[[]|e] w1]; [|done]. by apply IH.
Qed.

Lemma inv_of_wp {A} (m : M A) (P : World → Prop) :
  (∀ w, P w → wp m (λ _, P) (λ _, P) w) → inv P m.
Proof.
  intros H w HP. specialize (H w HP). unfold wp in H. by destruct (m w) as [[a|e] w'].
Qed.

Section Missing.
Context (faults : Site → nat → bool).
Hypothesis Hff : data_faults_free faults.

Ltac nofault :=
  match goal with
  | H : faults ?s _ = true |- _ => apply Hff in H; simpl in H; discriminate
  end.

Lemma primary_Table_unknown site t t' : inv (unknown t) (primary_Table faults site t').
Proof.
  apply inv_of_wp. intros w [Hdb Hpm]. unfold unknown. wp_go; try done.
  split; [done|]. intros Hin. apply elem_of_union in Hin as [Hin|Hin]; [|done].
  apply elem_of_singleton in Hin as ->. congruence.
Qed.

Lemma sync_one_unknown p s t t' : inv (unknown t) (sync_one faults p s t').
Proof.
  unfold sync_one, create_table_if_not_exists.
  repeat first [apply primary_Table_unknown | inv_step].
  all: try (apply inv_ust; intros w w' (Hp & _ & Hm & _) [? ?]; split; congruence).
  all: done.
Qed.

Lemma sync_one_missing p s t w :
  unknown t w →
  wp (sync_one faults p s t) (λ _ _, False) (λ e _, e = NoSuchTableError t) w.
Proof.
  intros [Hdb Hpm]. unfold sync_one. wp_go; try nofault.
  all: rewrite ?bool_decide_eq_true, ?bool_decide_eq_false in *.
  all: simpl in *; try done; try congruence.
Qed.

Lemma batch_commits names w :
  ready w → (∀ t, t ∈ names → is_Some (primary_db w !! t)) →
  wp (sync_table_changes faults names)
     (λ _ w', committed names w' ∧ ready w') (λ _ _, False) w.
Proof.
  intros Hready Hsome. unfold sync_table_changes. wp_go.
  eapply wp_conseq; [by apply batch_progress| |done].
  intros [] w3 [Htm Hok]. wp_go; try nofault.
  split; [apply last_snoc|]. split; [done|].
  intros t Ht. simpl in *. destruct (Hok t Ht) as [rows Hrows].
  destruct (p_tables (pending_of sid0 w3) !! t) as [rows'|] eqn:Hov.
  - exists rows'. by apply lookup_union_Some_l.
  - exists rows. by rewrite lookup_union_r.
Qed.

(** The first table of the batch that the source lacks is the one the
    error names. *)
Lemma batch_missing pre t post w :
  ready w → (∀ t', t' ∈ pre → is_Some (primary_db w !! t')) → unknown t w →
  wp (sync_table_changes faults (pre ++ t :: post))
     (λ _ w', rolled_back (pre ++ t :: post) (NoSuchTableError t) w')
     (λ _ _, False) w.
Proof.
  intros Hready Hsome Hun. unfold sync_table_changes. wp_go.
  apply wp_for_each_app. eapply wp_conseq.
  - apply wp_and; [by apply batch_progress|].
    apply (wp_inv _ (unknown t)); [|done].
    apply inv_for_each. intros t'. apply sync_one_unknown.
  - intros [] w3 [_ Hun3]. simpl. apply wp_bind.
    eapply wp_conseq; [by apply sync_one_missing|done|].
    intros e w4 ->. wp_go. apply last_snoc.
  - by intros e w3 [[] _].
Qed.

End Missing.

(** ** The bootstrap *)

Lemma quiet_log (w : World) line :
  line ≠ LogInfo MsgNotFirstRun → quiet_so_far w →
  quiet_so_far (set_logs (logs w ++ [line]) w).
Proof.
  intros Hline Hq Hin. simpl in Hin. apply elem_of_app in Hin as [Hin|Hin]; [done|].
  by apply list_elem_of_singleton in Hin.
Qed.

Ltac quiet_leaf :=
  lazymatch goal with
  | H : quiet_so_far _ |- quiet_so_far _ =>
      first [ exact H | by apply quiet_log ]
  end.

Lemma committed_not_rolled_back names e w :
  committed names w → rolled_back names e w → False.
Proof. unfold committed, rolled_back. congruence. Qed.

Section Main.
Context (faults : Site → nat → bool).

Lemma batch_quiet names : inv quiet_so_far (sync_table_changes faults names).
Proof.
  unfold sync_table_changes, sync_one, update_sync_tracking. inv_go.
  all: quiet_leaf.
Qed.

Lemma main_not_first_run tables w :
  quiet_so_far w →
  LogInfo MsgNotFirstRun ∈ logs (main faults tables w).2 →
  secondary_db (main faults tables w).2 = secondary_db w.
Proof.
  intros Hq. apply (wp_post _ (λ w', LogInfo MsgNotFirstRun ∈ logs w' →
                                  secondary_db w' = secondary_db w)).
  assert (Hun : untouched (secondary_db w) w) by done.
  revert Hun. generalize (secondary_db w) as X. clear Hq. intros X Hun.
  unfold main.
  do 3 (apply wp_seq_inv with (P := untouched X);
        [ inv_go;
          match goal with H : untouched _ _ |- _ => destruct H as [? ?] end;
          (split; [done|quiet_leaf])
        | done | clear w Hun; intros [] w Hun | by intros ? ? [? ?] ]).
  apply wp_seq_inv with (P := untouched X);
    [ unfold is_first_run; inv_go;
      match goal with H : untouched _ _ |- _ => destruct H as [? ?] end;
      (split; [done|quiet_leaf])
    | done | clear w Hun; intros first w [Hdb Hq] | by intros ? ? [? ?] ].
  destruct first.
  - (* first run: the line is never logged *)
    apply (wp_conseq _ _ (λ _, quiet_so_far) _ (λ _, quiet_so_far)); [|done..].
    apply (wp_inv _ quiet_so_far); [|done].
    inv_go; try quiet_leaf. apply batch_quiet.
  - apply (wp_conseq _ _ (λ _ w', secondary_db w' = X) _
                         (λ _ w', secondary_db w' = X)); [|done..].
    apply (wp_inv _ (λ w', secondary_db w' = X)); [|done].
    inv_go; done.
Qed.

End Main.

Lemma no_faults_free : data_faults_free no_faults.
Proof. by intros site n H. Qed.

Section FirstRun.
Context (faults : Site → nat → bool).
Hypothesis Hff : data_faults_free faults.

Ltac nofault :=
  match goal with
  | H : faults ?s _ = true |- _ => apply Hff in H; simpl in H; discriminate
  end.

(** A first run: the tracking table is not there, or is empty, or cannot be
    read.  The batch is made, and when nothing else fails it goes through. *)
Lemma main_first_run pdb sdb sto tdb seq now tables :
  tdb = None ∨ tdb = Some [] ∨ faults first_run_select 2 = true →
  (∀ t, t ∈ tables → is_Some (pdb !! t)) →
  ∀ t, t ∈ tables →
    secondary_db (main faults tables (boot_world pdb sdb sto tdb seq now)).2 !! t =
    map (sto t) <$> pdb !! t.
Proof.
  intros Htdb Hsome.
  apply (wp_post _ (λ w', ∀ t, t ∈ tables → secondary_db w' !! t = map (sto t) <$> pdb !! t)).
  unfold main, boot_world. wp_go; try nofault.
  all: simpl in *.
  all: try (exfalso; match goal with
            | H : _ || true = false |- _ => by rewrite orb_true_r in H
            | H : true = false |- _ => discriminate H
            end).
  all: (eapply wp_conseq;
        [apply wp_and;
           [apply is_first_run_spec
           |apply (wp_inv _ (λ w, secondary_stores w = sto));
              [unfold is_first_run; inv_go; done|done]]
        | |]; simpl;
        [intros b w2 [(_ & Hsdb & Htdb2 & Hpdb & Hsm & Htm & Hb) Hsto]
        | by intros e w2 [(_ & _ & _ & _ & ? & _) _]]).
  all: assert (Hfirst : b = true);
       [ rewrite (Hb _ eq_refl); clear Hb;
         repeat match goal with H : tracking_db _ = _ |- _ => rewrite H in * end;
         simplify_eq/=; try done;
         destruct Htdb as [?|[?|Hsel]]; simplify_eq/=; try done;
         repeat case_match; simplify_eq/=; done
       | subst b; clear Hb ].
  all: wp_go.
  all: (eapply wp_conseq;
        [apply wp_and; [apply batch_spec | apply batch_commits; [exact Hff| |]]
        | | by intros ? ? [_ []] ]; simpl).
  all: try (split; [done|]; intros t Ht; simpl in *; rewrite Hsdb; rewrite Hsm in Ht;
            apply elem_of_dom; apply elem_of_union in Ht as [Ht|Ht];
            [by apply elem_of_empty in Ht|done]).
  all: try (intros t Ht; simpl; rewrite Hpdb; simpl; by apply Hsome).
  all: intros [] w3 [(_ & _ & [(_ & Hsync & _)|(e & Hrb & _)]) [Hc _]];
       [|by destruct (committed_not_rolled_back _ _ _ Hc Hrb)].
  all: simpl in Hsync; rewrite Hpdb, Hsto in Hsync; simpl in Hsync.
  all: apply wp_seq_inv with
         (P := λ w', ∀ t, t ∈ tables → secondary_db w' !! t = map (sto t) <$> pdb !! t);
       [ inv_go; done | intros t Ht; by apply Hsync | | done ].
  all: intros [] w4 H4; by wp_go.
Qed.

End FirstRun.

(** A later run: the tracking table has a record and can be read. *)
Lemma main_later_run faults pdb sdb sto r rs seq now tables :
  faults boot_reflect_primary 0 = false → faults boot_reflect_secondary 1 = false →
  faults first_run_select 2 = false →
  LogInfo MsgNotFirstRun ∈
    logs (main faults tables (boot_world pdb sdb sto (Some (r :: rs)) seq now)).2.
Proof.
  intros Hf0 Hf1 Hf2.
  apply (wp_post _ (λ w', LogInfo MsgNotFirstRun ∈ logs w')).
  unfold main, boot_world. wp_go; simpl in *; try congruence.
  eapply wp_conseq; [apply is_first_run_spec| |]; simpl;
    [intros b w2 (_ & _ & _ & _ & _ & _ & Hb) | by intros e w2 (_ & _ & _ & _ & ? & _)].
  rewrite (Hb _ eq_refl); clear Hb. rewrite Hf2. wp_go.
  eapply wp_conseq;
    [ apply (wp_inv _ (λ w', LogInfo MsgNotFirstRun ∈ logs w'));
      [ inv_go; simpl; apply elem_of_app; by left
      | simpl; apply elem_of_app; right; by left ]
    | | done ].
  intros [] w4 H4. wp_go. apply elem_of_app. by left.
Qed.

(** ** Runs of the tracking upsert *)

Section History.
Context (faults : Site → nat → bool).

(** What one call does to the tracking table. *)
Lemma ust_cases name w :
  let w' := (update_sync_tracking faults name w).2 in
  (upsert_ok name w w' ∧
     ∃ recs, tracking_db w = Some recs ∧
             tracking_db w' = Some (upsert name (clock w) (S (tracking_seq w)) recs)) ∨
  (¬ upsert_ok name w w' ∧ tracking_db w' = tracking_db w).
Proof.
  pose proof (ust_spec faults name w) as H. unfold wp in H. unfold upsert_ok.
  destruct (update_sync_tracking faults name w) as [[[]|e] w']; simpl.
  - destruct H as (_ & _ & [(recs & Hdb & Hdb' & Hlog)|(e & Hdb & Hlog)]).
    + left. eauto.
    + right. split; [|done]. rewrite Hlog. intros Heq.
      by apply app_inv_head in Heq.
  - destruct H as (_ & Hdb & Hlog & _). right. split; [|done]. rewrite Hlog.
    intros Heq. apply (f_equal length) in Heq. rewrite length_app in Heq.
    simpl in Heq. lia.
Qed.

Lemma history_inv name w0 n last w :
  one_per_name_db w0 → history faults name w0 n last w →
  one_per_name_db w ∧
  (1 ≤ n → ∃ recs r ts, tracking_db w = Some recs ∧ records_for name recs = [r] ∧
                        last = Some ts ∧ tr_last_synced_at r = ts).
Proof.
  intros H0 Hh. induction Hh as [|n last w Hh [IH1 IH2] Hok|n last w Hh [IH1 IH2] Hko
                                |n last w name' Hne Hh [IH1 IH2]].
  - split; [done|lia].
  - destruct (ust_cases name w) as [(_ & recs & Hdb & Hdb')|[Hko _]]; [|done].
    simpl in *. split.
    + intros recs' Hrecs'. rewrite Hdb' in Hrecs'. simplify_eq.
      apply upsert_one_per_name. by apply IH1.
    + intros _. destruct (upsert_same name (clock w) (S (tracking_seq w)) recs) as (r & Hr & _ & Hts).
      { by apply IH1. }
      by exists (upsert name (clock w) (S (tracking_seq w)) recs), r, (clock w).
  - destruct (ust_cases name w) as [(Hok & _)|[_ Hdb]]; [done|]. simpl in *.
    unfold one_per_name_db. rewrite Hdb. done.
  - destruct (ust_cases name' w) as [(_ & recs & Hdb & Hdb')|[_ Hdb]]; simpl in *.
    + split.
      * intros recs' Hrecs'. rewrite Hdb' in Hrecs'. simplify_eq.
        apply upsert_one_per_name. by apply IH1.
      * intros Hn. destruct (IH2 Hn) as (recs0 & r & ts & Hdb0 & Hr & Hlast & Hts).
        simplify_eq. eexists _, r, _. split; [exact Hdb'|].
        by rewrite upsert_other.
    + unfold one_per_name_db. rewrite Hdb. done.
Qed.

Lemma ust_one_per_name name w :
  one_per_name_db w → one_per_name_db (update_sync_tracking faults name w).2.
Proof.
  intros Hone. destruct (ust_cases name w) as [(_ & recs & Hdb & Hdb')|[_ Hdb]]; simpl in *.
  - intros recs' Hrecs'. rewrite Hdb' in Hrecs'. simplify_eq.
    apply upsert_one_per_name. by apply Hone.
  - unfold one_per_name_db. by rewrite Hdb.
Qed.

Lemma ust_singled_apart s name : inv (singled_apart s) (update_sync_tracking faults name).
Proof.
  intros w [Hone Hpt]. split; [by apply ust_one_per_name|].
  destruct (ust_frame_run faults name w) as (_ & _ & _ & _ & Hss).
  unfold pending_of in *. by rewrite Hss.
Qed.

(** A batch keeps the tracking table at one record per name. *)
Lemma batch_one_per_name names w :
  one_per_name_db w → one_per_name_db (sync_table_changes faults names w).2.
Proof.
  intros Hone. apply (wp_post _ one_per_name_db). unfold sync_table_changes.
  wp_go. rename sid into p, sid0 into s.
  eapply wp_conseq; [apply (wp_inv _ (singled_apart s))| |].
  - unfold sync_one. inv_go.
    all: try match goal with
             | H : singled_apart _ _ |- _ =>
                 destruct H as [? Hpt]; split; [done|];
                 unfold set_pending_table, pending_of in *; simpl in *;
                 first [ done | by rewrite lookup_insert_eq ]
             end.
    apply ust_singled_apart.
  - split; [done|]. unfold pending_of. simpl. by rewrite lookup_insert_eq.
  - intros [] w' [Hone' Hpt]. wp_go; [done|].
    unfold one_per_name_db, pending_of in *. simpl. by rewrite Hpt.
  - intros e w' [Hone' Hpt]. by wp_go.
Qed.

End History.

(** ** One table, whatever the state of the metadata *)

Section Alone.
Context (faults : Site → nat → bool).
Hypothesis Hff : data_faults_free faults.

Ltac nofault :=
  match goal with
  | H : faults ?s _ = true |- _ => apply Hff in H; simpl in H; discriminate
  end.

Lemma mirror_alone pdb t w :
  primary_db w = pdb → is_Some (pdb !! t) → fit t w →
  wp (create_table_if_not_exists faults t) (λ _, going_alone pdb t) (λ _ _, False) w.
Proof.
  intros Hp [rows Hrows] [Hsec Htr]. unfold going_alone. wp_go; try nofault.
  all: rewrite ?bool_decide_eq_true, ?bool_decide_eq_false in *.
  all: rewrite ?Hp in *; simplify_eq.
  all: repeat split; try done.
  all: try (apply created_create_all;
            first [done | apply elem_of_union_l; by apply elem_of_singleton]).
  by apply Hsec.
Qed.

Lemma insert_loop_alone pdb s t rows : ∀ cur w,
  going_alone pdb t w → p_tables (pending_of s w) !! t = Some cur →
  wp (for_each rows (λ row, secondary_insert faults sync_insert s t row))
     (λ _, going_alone pdb t) (λ _ _, False) w.
Proof.
  induction rows as [|row rows IH]; intros cur w Hgo Hcur; simpl.
  - by apply wp_ret.
  - wp_go; try nofault.
    + eapply (IH (l ++ [_])).
      * done.
      * unfold set_pending_table, pending_of. simpl. rewrite lookup_insert_eq. simpl.
        by rewrite lookup_insert_eq.
    + unfold view, pending_of in *. simpl in *. by rewrite Hcur in *.
Qed.

Lemma ust_alone name w :
  tracking_meta w = true ∨ is_Some (tracking_db w) →
  wp (update_sync_tracking faults name) (λ _ w', ust_frame w w') (λ _ _, False) w.
Proof.
  intros Htr. eapply wp_conseq; [apply ust_spec| |]; simpl.
  - by intros [] w' [? _].
  - intros e w' (_ & _ & _ & Hmeta & _ & Hwhy). destruct Htr as [Htr|[recs Hrecs]].
    + congruence.
    + destruct Hwhy as [Hnone|Hfault]; [congruence|nofault].
Qed.

Lemma sync_one_alone p s t w :
  fit t w → is_Some (primary_db w !! t) →
  wp (sync_one faults p s t) (λ _ _, True) (λ _ _, False) w.
Proof.
  intros Hfit Hsome. unfold sync_one.
  eapply wp_seq; [by apply (mirror_alone (primary_db w))| |done].
  clear Hfit. intros [] w1 (Hp & Htr & [srows Hsrows]). simpl.
  destruct Hsome as [prows Hprows]. rewrite <- Hp in Hprows.
  wp_go; try nofault.
  all: rewrite ?bool_decide_eq_true, ?bool_decide_eq_false in *.
  all: try congruence.
  all: try (unfold view, pending_of in *; simpl in *; repeat case_match; congruence).
  all: eapply wp_conseq;
    [ eapply (insert_loop_alone (primary_db w) s t _ []);
      [ repeat split; simpl; try done
      | unfold set_pending_table, pending_of; simpl; rewrite lookup_insert_eq; simpl;
        by rewrite lookup_insert_eq ]
    | | done ].
  all: intros [] w2 (Hp2 & Htr2 & Hsec2); simpl.
  all: eapply wp_conseq; [by apply ust_alone|done|done].
Qed.

(** A destination table that the metadata knows and that is not there: the
    delete fails, if nothing fails before it. *)
Lemma sync_one_stale p s t w :
  stale t w → p_tables (pending_of s w) !! t = None →
  wp (sync_one faults p s t) (λ _ _, False)
     (λ _ w', stale t w' ∧ secondary_db w' = secondary_db w) w.
Proof.
  intros [Hin Hnone] Hpend. unfold sync_one, stale. wp_go.
  all: rewrite ?bool_decide_eq_true, ?bool_decide_eq_false in *.
  all: try done.
  all: unfold view, pending_of in *; simpl in *; repeat case_match; congruence.
Qed.

(** No tracking table, known or there: the tracking update raises, if
    nothing fails before it. *)
Lemma ust_untracked name w :
  untracked w →
  wp (update_sync_tracking faults name) (λ _ _, False) (λ _, untracked) w.
Proof.
  intros [Hmeta Hnone]. unfold update_sync_tracking, untracked.
  apply wp_bind. wp_go; try nofault; by try congruence.
Qed.

Lemma sync_one_untracked p s t w :
  untracked w →
  wp (sync_one faults p s t) (λ _ _, False) (λ _, untracked) w.
Proof.
  intros Hun. unfold sync_one.
  do 3 (apply wp_seq_inv with (P := untracked);
        [inv_go; done | done | clear w Hun; intros [] w Hun | done]).
  apply wp_seq_inv with (P := untracked);
        [inv_go; done | done | clear w Hun; intros rows w Hun | done].
  do 2 (apply wp_seq_inv with (P := untracked);
        [inv_go; done | done | clear w Hun; intros [] w Hun | done]).
  by apply ust_untracked.
Qed.

(** ** One-table batches *)

Lemma single_commits t w :
  fit t w → is_Some (primary_db w !! t) →
  committed [t] (sync_table_changes faults [t] w).2.
Proof.
  intros Hfit Hsome. apply (wp_post _ (committed [t])).
  unfold sync_table_changes. wp_go.
  eapply wp_conseq; [by apply sync_one_alone| |done].
  intros [] w1 _. wp_go; try nofault. all: apply last_snoc.
Qed.

Lemma single_stale t w :
  stale t w →
  stale t (sync_table_changes faults [t] w).2 ∧
  ∃ e, rolled_back [t] e (sync_table_changes faults [t] w).2.
Proof.
  intros Hst.
  apply (wp_post _ (λ w', stale t w' ∧ ∃ e, rolled_back [t] e w')).
  unfold sync_table_changes. wp_go.
  eapply wp_conseq; [apply sync_one_stale| |]; simpl.
  - done.
  - unfold pending_of. simpl. by rewrite lookup_insert_eq.
  - done.
  - intros e w1 [Hst1 _]. wp_go. split; [done|]. eexists. apply last_snoc.
Qed.

Lemma single_untracked t w :
  untracked w →
  untracked (sync_table_changes faults [t] w).2 ∧
  ∃ e, rolled_back [t] e (sync_table_changes faults [t] w).2.
Proof.
  intros Hun.
  apply (wp_post _ (λ w', untracked w' ∧ ∃ e, rolled_back [t] e w')).
  unfold sync_table_changes. wp_go.
  eapply wp_conseq; [by apply sync_one_untracked|done|]; simpl.
  intros e w1 Hun1. wp_go. split; [done|]. eexists. apply last_snoc.
Qed.

End Alone.

(** ** Runs in plain form *)

Lemma batch_run faults names w :
  let r := sync_table_changes faults names w in
  r.1 = Ok tt ∧ sessions r.2 = sessions w ∧ primary_db r.2 = primary_db w ∧
  ((committed names r.2 ∧
    (∀ t, t ∈ names →
       secondary_db r.2 !! t = map (secondary_stores w t) <$> primary_db w !! t ∧
       is_Some (primary_db w !! t)) ∧
    (∀ t, t ∉ names → dest_rows r.2 t = dest_rows w t)) ∨
   (∃ e, rolled_back names e r.2 ∧ ∀ t, dest_rows r.2 t = dest_rows w t)).
Proof.
  pose proof (batch_spec faults names w) as H. unfold wp in H.
  by destruct (sync_table_changes faults names w) as [[[]|e] w'].
Qed.

(** How the destination tables store their rows is the same after a batch. *)
Lemma batch_stores faults names w :
  secondary_stores (sync_table_changes faults names w).2 = secondary_stores w.
Proof.
  assert (H : inv (λ w', secondary_stores w' = secondary_stores w)
                  (sync_table_changes faults names))
    by (unfold sync_table_changes, sync_one, update_sync_tracking; inv_go; done).
  by apply H.
Qed.

Lemma batch_run_commits faults names w :
  data_faults_free faults → ready w → (∀ t, t ∈ names → is_Some (primary_db w !! t)) →
  committed names (sync_table_changes faults names w).2.
Proof.
  intros Hff Hready Hsome.
  pose proof (batch_commits faults Hff names w Hready Hsome) as H. unfold wp in H.
  destruct (sync_table_changes faults names w) as [[[]|e] w']; [|done]. by destruct H.
Qed.

Lemma batch_run_missing faults pre t post w :
  data_faults_free faults → ready w → (∀ t', t' ∈ pre → is_Some (primary_db w !! t')) →
  unknown t w →
  rolled_back (pre ++ t :: post) (NoSuchTableError t)
    (sync_table_changes faults (pre ++ t :: post) w).2.
Proof.
  intros Hff Hready Hsome Hun.
  pose proof (batch_missing faults Hff pre t post w Hready Hsome Hun) as H. unfold wp in H.
  by destruct (sync_table_changes faults (pre ++ t :: post) w) as [[[]|e] w'].
Qed.

Lemma committed_rows faults names w t :
  committed names (sync_table_changes faults names w).2 → t ∈ names →
  secondary_db (sync_table_changes faults names w).2 !! t =
    map (secondary_stores w t) <$> primary_db w !! t ∧
  is_Some (primary_db w !! t).
Proof.
  intros Hc Ht. destruct (batch_run faults names w) as (_ & _ & _ & [(_ & H & _)|(e & Hrb & _)]).
  - by apply H.
  - by destruct (committed_not_rolled_back _ _ _ Hc Hrb).
Qed.

Lemma rolled_back_rows faults names w e t :
  rolled_back names e (sync_table_changes faults names w).2 →
  dest_rows (sync_table_changes faults names w).2 t = dest_rows w t.
Proof.
  intros Hrb. destruct (batch_run faults names w) as (_ & _ & _ & [(Hc & _)|(e' & _ & H)]).
  - by destruct (committed_not_rolled_back _ _ _ Hc Hrb).
  - apply H.
Qed.

Lemma meta_ok_fresh w : secondary_meta w = ∅ → meta_ok w.
Proof. intros H t Ht. rewrite H in Ht. by apply elem_of_empty in Ht. Qed.

Lemma fit_or_not t w : fit t w ∨ stale t w ∨ untracked w.
Proof.
  unfold fit, stale, untracked.
  destruct (decide (t ∈ secondary_meta w)) as [Hin|Hnin];
    destruct (secondary_db w !! t) as [rows|] eqn:Hs;
    destruct (tracking_meta w) eqn:Hm;
    destruct (tracking_db w) as [recs|] eqn:Hd;
    first [ by right; right
          | by right; left
          | left; split; [intros ?; first [done | by eexists]
                         | first [by left | right; by eexists]] ].
Qed.

(** Two one-table runs in a row end with the same rows in the destination
    table when nothing but the tracking upsert can fail. *)
Lemma single_twice faults t w :
  data_faults_free faults →
  dest_rows (sync_table_changes faults [t] (sync_table_changes faults [t] w).2).2 t =
  dest_rows (sync_table_changes faults [t] w).2 t.
Proof.
  intros Hff.
  destruct (batch_run faults [t] w) as (_ & _ & Hp1 & Hend1).
  destruct (batch_run faults [t] (sync_table_changes faults [t] w).2)
    as (_ & _ & Hp2 & Hend2).
  assert (Hin : t ∈ [t]) by apply list_elem_of_here.
  destruct Hend2 as [(_ & Hsync2 & _)|(e & _ & Hsame)]; [|done].
  destruct (Hsync2 t Hin) as [Heq2 Hsome]. rewrite Hp1 in Heq2, Hsome.
  rewrite batch_stores in Heq2.
  destruct (fit_or_not t w) as [Hfit|[Hst|Hun]].
  - pose proof (single_commits faults Hff t w Hfit Hsome) as Hc.
    destruct (committed_rows faults [t] w t Hc Hin) as [Heq1 _].
    unfold dest_rows. by rewrite Heq2, Heq1.
  - destruct (single_stale faults t w Hst) as [Hst1 _].
    destruct (single_stale faults t _ Hst1) as [_ [e Hrb]].
    by eapply rolled_back_rows.
  - destruct (single_untracked faults Hff t w Hun) as [Hun1 _].
    destruct (single_untracked faults Hff t _ Hun1) as [_ [e Hrb]].
    by eapply rolled_back_rows.
Qed.

(** ** When a batch is rolled back *)

Lemma for_each_fails {A} (body : A → M unit) pre x post e : ∀ w0 w1 w2,
  for_each pre body w0 = (Ok tt, w1) → body x w1 = (Raise e, w2) →
  for_each (pre ++ x :: post) body w0 = (Raise e, w2).
Proof.
  induction pre as [|y pre IH]; intros w0 w1 w2 Hpre Hx; simpl in *.
  - injection Hpre as <-. unfold mbind, M_bind, bind. by rewrite Hx.
  - unfold mbind, M_bind, bind in *. destruct (body y w0) as [[[]|e'] w']; [|done].
    by eapply IH.
Qed.

Section Outcome.
Context (faults : Site → nat → bool).

(** The batch is rolled back when its loop raises and when its commit
    fails, and committed otherwise. *)
Lemma batch_outcome names w p w1 s w0 :
  PrimarySession w = (Ok p, w1) → SecondarySession w1 = (Ok s, w0) →
  match for_each names (sync_one faults p s) w0 with
  | (Raise e, _) => rolled_back names e (sync_table_changes faults names w).2
  | (Ok _, w2) =>
      if faults sync_commit (ticks w2)
      then rolled_back names (OperationalError sync_commit)
             (sync_table_changes faults names w).2
      else committed names (sync_table_changes faults names w).2
  end.
Proof.
  intros Hp Hs. unfold sync_table_changes, committed, rolled_back.
  unfold mbind, M_bind, bind, try_finally, try_except. rewrite Hp, Hs.
  destruct (for_each names (sync_one faults p s) w0) as [[[]|e] w2]; simpl.
  - unfold session_commit, session_rollback, session_close, io, logger_info, logger_error,
      modify, mbind, M_bind, bind.
    destruct (faults sync_commit (ticks w2)); simpl; apply last_snoc.
  - unfold session_rollback, session_close, logger_error, modify, mbind, M_bind, bind.
    simpl. apply last_snoc.
Qed.

Lemma insert_loop_raises s t rows : ∀ w,
  wp (for_each rows (λ row, secondary_insert faults sync_insert s t row))
     (λ _ _, True)
     (λ e _, ∀ site, tracking_site site = true → e ≠ OperationalError site) w.
Proof.
  induction rows as [|row rows IH]; intros w; simpl.
  - by apply wp_ret.
  - wp_go; try done.
    all: by intros site Hsite [= <-].
Qed.

(** The errors of the statements of the tracking upsert stay in
    [update_sync_tracking]: what leaves the loop body is another error. *)
Lemma ust_raises name w :
  wp (update_sync_tracking faults name) (λ _ _, True)
     (λ e _, ∀ site, tracking_site site = true → e ≠ OperationalError site) w.
Proof.
  unfold update_sync_tracking. wp_go; try done.
  all: by intros site Hsite [= <-].
Qed.

Lemma sync_one_raises p s t w :
  wp (sync_one faults p s t) (λ _ _, True)
     (λ e _, ∀ site, tracking_site site = true → e ≠ OperationalError site) w.
Proof.
  unfold sync_one. wp_go; try done.
  all: try by intros site Hsite [= <-].
  all: (eapply wp_conseq; [apply insert_loop_raises| |done]; intros [] w2 _; simpl).
  all: apply ust_raises.
Qed.

End Outcome.

(** ** The claims *)

(** C1, as the code has it.  A batch ends committed or rolled back.  When it
    is committed, the destination holds, for every table of the batch, the
    source rows as the destination table stores them, and the other tables
    keep their rows; when it is rolled back, whatever failed and at whichever
    table, every destination table keeps the rows it had before the batch.
    The tracking records are outside this transaction: every tracking update
    that the log reports, those of a rolled-back batch included, has its
    record in the tracking table.

    When it is rolled back: [p] and [s] being the sessions that the batch
    opens, it is rolled back when its loop raises, with the error of the loop,
    and when its commit fails; it is committed otherwise.  So an exception of
    the loop body at a table of the batch, the tables before it having gone
    through, rolls the batch back with that exception.  Such an exception is
    never the error of a statement of the tracking upsert: those stay inside
    [update_sync_tracking] and the loop goes on. *)
Theorem batch_rows_all_or_nothing faults names w :
  let w' := (sync_table_changes faults names w).2 in
  (committed names w' ∨ ∃ e, rolled_back names e w') ∧
  (committed names w' →
     (∀ t, t ∈ names →
        secondary_db w' !! t = map (secondary_stores w t) <$> primary_db w !! t) ∧
     (∀ t, t ∉ names → dest_rows w' t = dest_rows w t)) ∧
  (∀ e, rolled_back names e w' → ∀ t, dest_rows w' t = dest_rows w t) ∧
  (tracked w → tracked w') ∧
  (∀ p w1 s w0,
     PrimarySession w = (Ok p, w1) → SecondarySession w1 = (Ok s, w0) →
     match for_each names (sync_one faults p s) w0 with
     | (Raise e, _) => rolled_back names e w'
     | (Ok _, w2) =>
         if faults sync_commit (ticks w2)
         then rolled_back names (OperationalError sync_commit) w'
         else committed names w'
     end ∧
     ∀ pre t post e w2 w3,
       names = pre ++ t :: post →
       for_each pre (sync_one faults p s) w0 = (Ok tt, w2) →
       sync_one faults p s t w2 = (Raise e, w3) →
       rolled_back names e w' ∧
       ∀ site, tracking_site site = true → e ≠ OperationalError site).
Proof.
  simpl. destruct (batch_run faults names w) as (_ & _ & _ & Hend).
  split; [|split; [|split; [|split]]].
  - destruct Hend as [(Hc & _)|(e & Hrb & _)]; eauto.
  - intros Hc. destruct Hend as [(_ & Hin & Hout)|(e & Hrb & _)].
    + split; [|done]. intros t Ht. by apply Hin.
    + by destruct (committed_not_rolled_back _ _ _ Hc Hrb).
  - intros e Hrb t. by eapply rolled_back_rows.
  - apply batch_tracked.
  - intros p w1 s w0 Hp Hs. pose proof (batch_outcome faults names w p w1 s w0 Hp Hs) as Hout.
    split; [done|]. intros pre t post e w2 w3 -> Hpre Hx.
    rewrite (for_each_fails _ pre t post e _ _ _ Hpre Hx) in Hout. split; [done|].
    pose proof (sync_one_raises faults p s t w2) as Hr. unfold wp in Hr.
    by rewrite Hx in Hr.
Qed.

Lemma batch_rows_all_or_nothing_witness :
  rolled_back ["A"; "B"] (OperationalError sync_insert)
    (sync_table_changes insert_fails ["A"; "B"] lagging).2 ∧
  dest_rows (sync_table_changes insert_fails ["A"; "B"] lagging).2 "A" = dest_rows lagging "A".
Proof.
  assert (Hrb : rolled_back ["A"; "B"] (OperationalError sync_insert)
                  (sync_table_changes insert_fails ["A"; "B"] lagging).2)
    by (vm_compute; reflexivity).
  split; [exact Hrb|].
  exact (proj1 (proj2 (proj2 (batch_rows_all_or_nothing insert_fails ["A"; "B"] lagging)))
           _ Hrb "A").
Defined.

(** The claim C1 fails where it speaks of the tracking records: the insert
    for B fails, the batch is rolled back and A keeps its rows, but the
    tracking record written for A during the batch is there. *)
Lemma batch_rollback_keeps_tracking_record :
  let w' := (sync_table_changes insert_fails ["A"; "B"] lagging).2 in
  rolled_back ["A"; "B"] (OperationalError sync_insert) w' ∧
  dest_rows w' "A" = dest_rows lagging "A" ∧
  tracking_db lagging = Some [] ∧
  tracking_db w' = Some [mkTrackRec 1 "A" 100] ∧
  tracking_db w' ≠ tracking_db lagging.
Proof. vm_compute. repeat split; discriminate. Qed.

(** C2, as the code has it.  After a batch that went through, each of its
    tables has in the destination one row for each row read from the source,
    in the same order: the source row as the destination table stores it.
    When the destination table stores the rows of the source as they are, as
    a table with the columns and the types of the source table does, these are
    exactly the rows read from the source, every row as it was. *)
Theorem sync_copies_source_rows faults names w t :
  let w' := (sync_table_changes faults names w).2 in
  committed names w' → t ∈ names →
  ∃ rows, primary_db w !! t = Some rows ∧
          secondary_db w' !! t = Some (map (secondary_stores w t) rows) ∧
          ((∀ row, row ∈ rows → secondary_stores w t row = row) →
           secondary_db w' !! t = Some rows ∧ dest_rows w' t ≡ₚ rows).
Proof.
  simpl. intros Hc Ht. destruct (committed_rows faults names w t Hc Ht) as [Heq [rows Hrows]].
  exists rows. split; [done|]. rewrite Heq, Hrows. simpl. split; [done|].
  intros Hsame. assert (Hmap : map (secondary_stores w t) rows = rows).
  { clear Hrows Heq. induction rows as [|row rows IH]; [done|]. simpl.
    rewrite Hsame by left. f_equal. apply IH. intros row' Hrow'. apply Hsame. by right. }
  rewrite Hmap. split; [done|]. unfold dest_rows. by rewrite Heq, Hrows; simpl; rewrite Hmap.
Qed.

Lemma sync_copies_source_rows_witness :
  committed ["A"; "B"] (sync_table_changes no_faults ["A"; "B"] lagging).2 ∧
  "A" ∈ ["A"; "B"] ∧
  secondary_db (sync_table_changes no_faults ["A"; "B"] lagging).2 !! "A" =
    Some [row_a; row_b].
Proof.
  assert (Hc : committed ["A"; "B"] (sync_table_changes no_faults ["A"; "B"] lagging).2)
    by (vm_compute; reflexivity).
  assert (Hin : "A" ∈ ["A"; "B"]) by apply list_elem_of_here.
  split; [exact Hc|]. split; [exact Hin|].
  destruct (sync_copies_source_rows no_faults ["A"; "B"] lagging "A" Hc Hin)
    as (rows & Hrows & _ & Hsame).
  injection Hrows as <-. by apply Hsame.
Defined.

(** The claim C2 fails on a destination table that was there before, with
    other column types: the batch goes through, and the destination table has
    the number 1 of the source as the text "1". *)
Lemma sync_stores_rows_in_destination_types :
  let w' := (sync_table_changes no_faults ["A"] retyped).2 in
  committed ["A"] w' ∧
  primary_db retyped !! "A" = Some [row_a; row_b] ∧
  secondary_db w' !! "A" = Some [[("id", VText "1"); ("name", VText "a")];
                                  [("id", VText "2"); ("name", VText "b")]] ∧
  secondary_db w' !! "A" ≠ Some [row_a; row_b].
Proof. vm_compute. repeat split; discriminate. Qed.

(** C3, as the code has it.  A first run is a bootstrap that finds no
    tracking table, or an empty one, or one that it cannot read: when the
    select of the first-run test fails (it is the third round trip of a
    bootstrap that finds the table), the test fails open.  On a first run,
    when nothing else fails and the source has every named table, the
    bootstrap resyncs the named tables.  Whenever it takes the other branch,
    whatever fails or not, it leaves the mirrored tables of the destination
    exactly as they were: no synchronisation is made; and that branch is the
    one taken when the tracking table holds a record and is read. *)
Theorem bootstrap_resyncs_on_first_run_only pdb sdb sto seq now tables :
  (∀ faults tdb, data_faults_free faults →
     tdb = None ∨ tdb = Some [] ∨ faults first_run_select 2 = true →
     (∀ t, t ∈ tables → is_Some (pdb !! t)) →
     ∀ t, t ∈ tables →
       secondary_db (main faults tables (boot_world pdb sdb sto tdb seq now)).2 !! t =
       map (sto t) <$> pdb !! t) ∧
  (∀ faults tdb,
     LogInfo MsgNotFirstRun ∈
       logs (main faults tables (boot_world pdb sdb sto tdb seq now)).2 →
     secondary_db (main faults tables (boot_world pdb sdb sto tdb seq now)).2 = sdb) ∧
  (∀ faults r rs,
     faults boot_reflect_primary 0 = false → faults boot_reflect_secondary 1 = false →
     faults first_run_select 2 = false →
     LogInfo MsgNotFirstRun ∈
       logs (main faults tables (boot_world pdb sdb sto (Some (r :: rs)) seq now)).2).
Proof.
  split; [|split].
  - intros faults tdb Hff Htdb Hsome t Ht. by apply main_first_run.
  - intros faults tdb Hlog.
    rewrite (main_not_first_run faults tables (boot_world pdb sdb sto tdb seq now));
      [done| |done].
    unfold quiet_so_far, boot_world. simpl. apply not_elem_of_nil.
  - intros faults r rs. apply main_later_run.
Qed.

(** The claim C3 fails on a later run: with a record in the tracking table
    the bootstrap does not call the synchronizer, and the destination table
    keeps its old row although the source has other rows. *)
Lemma bootstrap_later_run_does_not_resync :
  let w := boot_world {["A" := [row_a; row_b]]} {["A" := [row_b]]} as_source
             (Some [old_record]) 1 100 in
  let w' := (main no_faults ["A"] w).2 in
  (main no_faults ["A"] w).1 = Ok tt ∧
  primary_db w' !! "A" = Some [row_a; row_b] ∧
  secondary_db w' !! "A" = Some [row_b] ∧
  logs w' = [LogInfo MsgNotFirstRun; LogInfo (MsgSettingUp "A"); LogInfo MsgSetupComplete].
Proof. vm_compute. by repeat split. Qed.

Lemma bootstrap_resyncs_on_first_run_only_witness :
  data_faults_free tracking_fails ∧
  secondary_db (main no_faults ["A"]
                  (boot_world {["A" := [row_a; row_b]]} {["A" := [row_b]]} as_source
                     (Some []) 0 100)).2 !! "A" = Some [row_a; row_b] ∧
  secondary_db (main tracking_fails ["A"]
                  (boot_world {["A" := [row_a; row_b]]} {["A" := [row_b]]} as_source
                     (Some [old_record]) 1 100)).2 !! "A" = Some [row_a; row_b] ∧
  LogInfo MsgNotFirstRun ∈
    logs (main no_faults ["A"]
            (boot_world {["A" := [row_a; row_b]]} {["A" := [row_b]]} as_source
               (Some [old_record]) 1 100)).2 ∧
  secondary_db (main no_faults ["A"]
                  (boot_world {["A" := [row_a; row_b]]} {["A" := [row_b]]} as_source
                     (Some [old_record]) 1 100)).2 = {["A" := [row_b]]}.
Proof.
  assert (Hff : data_faults_free tracking_fails) by (intros site n Hf; exact Hf).
  assert (Hsome : ∀ t, t ∈ ["A"] →
            is_Some (({["A" := [row_a; row_b]]} : gmap string (list Row)) !! t)).
  { intros t Ht. apply list_elem_of_singleton in Ht as ->. by eexists. }
  pose proof (bootstrap_resyncs_on_first_run_only
                {["A" := [row_a; row_b]]} {["A" := [row_b]]} as_source) as H.
  split; [exact Hff|]. split; [|split; [|split]].
  - destruct (H 0 100 ["A"]) as (H1 & _ & _).
    rewrite (H1 no_faults (Some []) no_faults_free (or_intror (or_introl eq_refl)) Hsome);
      [reflexivity|apply list_elem_of_here].
  - destruct (H 1 100 ["A"]) as (H1 & _ & _).
    rewrite (H1 tracking_fails (Some [old_record]) Hff (or_intror (or_intror eq_refl)) Hsome);
      [reflexivity|apply list_elem_of_here].
  - destruct (H 1 100 ["A"]) as (_ & _ & H3). by apply H3.
  - destruct (H 1 100 ["A"]) as (_ & H2 & H3). apply H2. by apply H3.
Defined.

(** C4.  Two runs for one table in a row, the source being left alone by
    both: the rows of the destination table after the second run are those
    after the first.  This holds for every table and every state, the table
    being in the source or not, when nothing but the tracking upsert can
    fail; and whatever fails, it holds whenever the first run was
    committed. *)
Theorem resync_idempotent faults t w :
  let w1 := (sync_table_changes faults [t] w).2 in
  let w2 := (sync_table_changes faults [t] w1).2 in
  primary_db w2 = primary_db w ∧
  (committed [t] w1 → dest_rows w2 t = dest_rows w1 t) ∧
  (data_faults_free faults → dest_rows w2 t = dest_rows w1 t).
Proof.
  simpl.
  destruct (batch_run faults [t] w) as (_ & _ & Hp1 & Hend1).
  destruct (batch_run faults [t] (sync_table_changes faults [t] w).2)
    as (_ & _ & Hp2 & Hend2).
  assert (Hin : t ∈ [t]) by apply list_elem_of_here.
  assert (Hfirst : committed [t] (sync_table_changes faults [t] w).2 →
    dest_rows (sync_table_changes faults [t] (sync_table_changes faults [t] w).2).2 t =
    dest_rows (sync_table_changes faults [t] w).2 t).
  { intros Hc. destruct (committed_rows faults [t] w t Hc Hin) as [Heq1 _].
    destruct Hend2 as [(_ & Hsync & _)|(e & _ & Hsame)]; [|done].
    destruct (Hsync t Hin) as [Heq2 _]. unfold dest_rows.
    by rewrite Heq2, Hp1, batch_stores, Heq1. }
  split; [congruence|]. split; [done|]. apply single_twice.
Qed.

Lemma resync_idempotent_witness :
  (committed ["A"] (sync_table_changes insert_fails ["A"] lagging).2 ∧
   dest_rows (sync_table_changes insert_fails ["A"]
                (sync_table_changes insert_fails ["A"] lagging).2).2 "A" =
   dest_rows (sync_table_changes insert_fails ["A"] lagging).2 "A") ∧
  (data_faults_free tracking_fails ∧
   dest_rows (sync_table_changes tracking_fails ["A"]
                (sync_table_changes tracking_fails ["A"] unprepared).2).2 "A" =
   dest_rows (sync_table_changes tracking_fails ["A"] unprepared).2 "A").
Proof.
  assert (Hc : committed ["A"] (sync_table_changes insert_fails ["A"] lagging).2)
    by (vm_compute; reflexivity).
  assert (Hff : data_faults_free tracking_fails) by (intros site n Hf; exact Hf).
  split; (split; [first [exact Hc | exact Hff]|]).
  - exact (proj1 (proj2 (resync_idempotent insert_fails "A" lagging)) Hc).
  - exact (proj2 (proj2 (resync_idempotent tracking_fails "A" unprepared)) Hff).
Defined.

(** C5, as the code has it.  The count is of the tracking upserts that went
    through, not of the batches: an upsert commits in a session of its own,
    whatever becomes of the batch around it.  The tracking table starting with
    one record per name at most (the empty table that the bootstrap creates,
    for one), consider any run of tracking upserts in which [n >= 1] upserts
    of [name] went through, with failed upserts of [name] and upserts of other
    tables in between.  Then the table has exactly one record of [name], it
    still has one record per name at most, and the record's [last_synced_at]
    is the timestamp that the most recent successful upsert of [name] took.
    A successful upsert is an update of the records of that name when there
    is one, an insert of a new record with the next key of the sequence
    otherwise; and a whole batch, whatever its list and its outcome, leaves
    the table with one record per name at most. *)
Theorem tracking_upsert_one_record faults name w0 n last w :
  one_per_name_db w0 → history faults name w0 n last w → 1 ≤ n →
  (∃ recs r ts, tracking_db w = Some recs ∧ one_per_name recs ∧
                records_for name recs = [r] ∧ tr_table_name r = name ∧
                last = Some ts ∧ tr_last_synced_at r = ts) ∧
  (upsert_ok name w (update_sync_tracking faults name w).2 →
   ∃ recs, tracking_db w = Some recs ∧
     tracking_db (update_sync_tracking faults name w).2 =
       Some (match records_for name recs with
             | [] => recs ++ [mkTrackRec (S (tracking_seq w)) name (clock w)]
             | _ :: _ => map (touch name (clock w)) recs
             end)) ∧
  (∀ names, one_per_name_db (sync_table_changes faults names w).2).
Proof.
  intros H0 Hh Hn. destruct (history_inv faults name w0 n last w H0 Hh) as [Hone Hrec].
  destruct (Hrec Hn) as (recs & r & ts & Hdb & Hr & Hlast & Hts).
  split; [|split; [|intros names; by apply batch_one_per_name]].
  - exists recs, r, ts. repeat split; try done; [by apply Hone|].
    assert (Hin : r ∈ records_for name recs) by (rewrite Hr; left).
    unfold records_for in Hin. apply list_elem_of_filter in Hin as [Hname _].
    unfold has_name in Hname. by apply bool_decide_eq_true_1 in Hname.
  - intros Hok. destruct (ust_cases faults name w) as [(_ & recs' & Hdb' & Hnew)|[Hko _]];
      [|done].
    exists recs'. split; [done|]. simpl in Hnew. rewrite Hnew. unfold upsert.
    by destruct (records_for name recs').
Qed.

(** The claim C5 fails where it counts successful syncs.  A batch that is
    rolled back has moved the timestamp of A, from 7 to 100, though A was not
    synchronised: the destination table A has its old row.  And a batch that
    is committed, with A synchronised, leaves no record of A when its
    tracking upsert failed. *)
Lemma tracking_record_does_not_follow_the_sync :
  let w1 := (sync_table_changes insert_fails ["A"; "B"] tracked_before).2 in
  let w2 := (sync_table_changes tracking_fails ["A"] lagging).2 in
  rolled_back ["A"; "B"] (OperationalError sync_insert) w1 ∧
  secondary_db w1 !! "A" = Some [row_b] ∧
  tracking_db tracked_before = Some [mkTrackRec 1 "A" 7] ∧
  tracking_db w1 = Some [mkTrackRec 1 "A" 100] ∧
  committed ["A"] w2 ∧
  secondary_db w2 !! "A" = Some [row_a; row_b] ∧
  tracking_db w2 = Some [].
Proof. vm_compute. by repeat split. Qed.

Lemma tracking_upsert_one_record_witness :
  one_per_name_db lagging ∧
  history no_faults "A" lagging 2
    (Some (clock (update_sync_tracking no_faults "A" lagging).2))
    (update_sync_tracking no_faults "A" (update_sync_tracking no_faults "A" lagging).2).2 ∧
  1 ≤ 2 ∧
  ∃ recs r ts,
    tracking_db (update_sync_tracking no_faults "A"
                   (update_sync_tracking no_faults "A" lagging).2).2 = Some recs ∧
    one_per_name recs ∧ records_for "A" recs = [r] ∧ tr_table_name r = "A" ∧
    Some (clock (update_sync_tracking no_faults "A" lagging).2) = Some ts ∧
    tr_last_synced_at r = ts.
Proof.
  assert (H0 : one_per_name_db lagging).
  { intros recs Hrecs name. injection Hrecs as <-. simpl. lia. }
  assert (Hh : history no_faults "A" lagging 2
    (Some (clock (update_sync_tracking no_faults "A" lagging).2))
    (update_sync_tracking no_faults "A" (update_sync_tracking no_faults "A" lagging).2).2).
  { apply hist_sync with (last := Some (clock lagging)).
    - apply hist_sync with (last := None); [apply hist_start|]. vm_compute. reflexivity.
    - vm_compute. reflexivity. }
  assert (Hn : 1 ≤ 2) by lia.
  split; [exact H0|]. split; [exact Hh|]. split; [exact Hn|].
  exact (proj1 (tracking_upsert_one_record no_faults "A" lagging 2 _ _ H0 Hh Hn)).
Defined.

(** What [is_first_run] does once the tracking table is known to the
    secondary metadata, as [create_sync_tracking_table] leaves it before the
    bootstrap asks: it always returns, true when the table is empty, false
    when it has a record and the select goes through, and true when the
    select fails or the table cannot be read at all. *)
Lemma is_first_run_fails_open faults w :
  tracking_meta w = true →
  ∃ b, (is_first_run faults w).1 = Ok b ∧
       (tracking_db w = Some [] → b = true) ∧
       (∀ r rs, tracking_db w = Some (r :: rs) →
                faults first_run_select (ticks w) = false → b = false) ∧
       (faults first_run_select (ticks w) = true → b = true) ∧
       (tracking_db w = None → b = true).
Proof.
  intros Hmeta. pose proof (is_first_run_spec faults w) as H. unfold wp in H.
  destruct (is_first_run faults w) as [[b|e] w']; simpl.
  - destruct H as (_ & _ & _ & _ & _ & _ & Hb). rewrite Hmeta in Hb.
    specialize (Hb _ eq_refl). exists b. split; [done|]. rewrite Hb.
    repeat split.
    + by intros ->.
    + by intros r rs -> ->.
    + intros ->. by repeat case_match.
    + by intros ->.
  - destruct H as (_ & _ & _ & _ & Hfalse & _). congruence.
Qed.

Lemma is_first_run_fails_open_witness :
  tracking_meta lagging = true ∧
  ∃ b, (is_first_run no_faults lagging).1 = Ok b ∧
       (tracking_db lagging = Some [] → b = true) ∧
       (∀ r rs, tracking_db lagging = Some (r :: rs) →
                no_faults first_run_select (ticks lagging) = false → b = false) ∧
       (no_faults first_run_select (ticks lagging) = true → b = true) ∧
       (tracking_db lagging = None → b = true).
Proof.
  split; [reflexivity|]. exact (is_first_run_fails_open no_faults lagging eq_refl).
Defined.

(** The bootstrap calls [is_first_run] with the tracking table known to the
    metadata: however [create_sync_tracking_table] ends, it has registered
    the table. *)
Lemma create_sync_tracking_table_registers faults w :
  tracking_meta (create_sync_tracking_table faults w).2 = true.
Proof.
  apply (wp_post _ (λ w', tracking_meta w' = true)).
  unfold create_sync_tracking_table. by wp_go.
Qed.

(** C6, where the code does not do what the claim says.  When the tracking
    table is not yet in the secondary metadata, [is_first_run] first reflects
    it, before its [try]: on a destination without tracking table, and on one
    whose tracking table is there and empty but whose reflection fails, the
    error reaches the caller instead of the answer true.  The session is not
    opened then and the log has no line. *)
Theorem is_first_run_leaks_reflection_error :
  is_first_run no_faults unprepared =
    (Raise (NoSuchTableError tracking_name), set_ticks 1 unprepared) ∧
  is_first_run reflection_fails unregistered =
    (Raise (OperationalError first_run_reflect), set_ticks 1 unregistered) ∧
  tracking_db unregistered = Some [].
Proof. vm_compute. by repeat split. Qed.

(** C7, as the code has it.  When a table of the batch is absent from the
    source, the call returns without an exception, the batch is rolled back
    and the error is logged with the list of the batch; no table is
    synchronised, those that exist in the source included: every destination
    table keeps the rows it had.  When the tables before the missing one are
    in the source, the metadata is not stale and nothing but the tracking
    upsert can fail, the logged error is the one that names the missing
    table. *)
Theorem missing_table_aborts_batch faults names t w :
  t ∈ names → primary_db w !! t = None →
  let r := sync_table_changes faults names w in
  r.1 = Ok tt ∧
  (∃ e, rolled_back names e r.2) ∧
  (∀ t', dest_rows r.2 t' = dest_rows w t') ∧
  (∀ pre post, names = pre ++ t :: post →
     data_faults_free faults → ready w → t ∉ primary_meta w →
     (∀ t', t' ∈ pre → is_Some (primary_db w !! t')) →
     rolled_back names (NoSuchTableError t) r.2).
Proof.
  intros Hin Hnone. simpl.
  destruct (batch_run faults names w) as (Hret & _ & _ & Hend).
  split; [done|].
  assert (Hrb : ∃ e, rolled_back names e (sync_table_changes faults names w).2 ∧
                     ∀ t', dest_rows (sync_table_changes faults names w).2 t' = dest_rows w t').
  { destruct Hend as [(_ & Hsync & _)|Hrb]; [|done].
    destruct (Hsync t Hin) as [_ Hsome]. rewrite Hnone in Hsome. by destruct Hsome. }
  destruct Hrb as (e & Hrb & Hsame). split; [by exists e|]. split; [done|].
  intros pre post -> Hff Hready Hmeta Hpre. by apply batch_run_missing.
Qed.

Lemma missing_table_aborts_batch_witness :
  "Z" ∈ ["A"; "Z"] ∧ primary_db lagging !! "Z" = None ∧
  (sync_table_changes no_faults ["A"; "Z"] lagging).1 = Ok tt ∧
  (∃ e, rolled_back ["A"; "Z"] e (sync_table_changes no_faults ["A"; "Z"] lagging).2) ∧
  (∀ t', dest_rows (sync_table_changes no_faults ["A"; "Z"] lagging).2 t' =
         dest_rows lagging t').
Proof.
  assert (Hin : "Z" ∈ ["A"; "Z"]) by (apply list_elem_of_further, list_elem_of_here).
  assert (Hnone : primary_db lagging !! "Z" = None) by (vm_compute; reflexivity).
  split; [exact Hin|]. split; [exact Hnone|].
  pose proof (missing_table_aborts_batch no_faults ["A"; "Z"] "Z" lagging Hin Hnone)
    as (H1 & H2 & H3 & _).
  split; [exact H1|]. split; [exact H2|exact H3].
Defined.

(** The claim C7 fails: Z is not in the source, A is, and after the batch
    the destination table A still has its old row and not the rows of the
    source; the one error line names the batch and the missing table. *)
Lemma missing_table_blocks_other_tables :
  let w' := (sync_table_changes no_faults ["A"; "Z"] lagging).2 in
  primary_db lagging !! "Z" = None ∧
  primary_db lagging !! "A" = Some [row_a; row_b] ∧
  secondary_db w' !! "A" = Some [row_b] ∧
  rolled_back ["A"; "Z"] (NoSuchTableError "Z") w'.
Proof. vm_compute. by repeat split. Qed.

(** What [update_sync_tracking] does once the tracking table is known to
    the metadata: the call returns without an exception and leaves the
    mirrored tables and every other session, the transaction of the batch
    among them, as they were.  Either the upsert went through, or the error
    is logged and the tracking table is what it was before the call.  So the
    loop goes on: when nothing but the tracking upsert can fail, the tables
    are in the source and the metadata is not stale, the batch is committed
    and every table of it holds the source rows as it stores them, whichever
    upserts failed. *)
Lemma tracking_failure_is_contained faults name w :
  tracking_meta w = true →
  let r := update_sync_tracking faults name w in
  r.1 = Ok tt ∧ ust_frame w r.2 ∧
  (upsert_ok name w r.2 ∨
   ∃ e, logs r.2 = logs w ++ [LogError (MsgTrackingFailed name e)] ∧
        tracking_db r.2 = tracking_db w) ∧
  (∀ names, data_faults_free faults → meta_ok w →
     (∀ t, t ∈ names → is_Some (primary_db w !! t)) →
     committed names (sync_table_changes faults names w).2 ∧
     ∀ t, t ∈ names →
       secondary_db (sync_table_changes faults names w).2 !! t =
       map (secondary_stores w t) <$> primary_db w !! t).
Proof.
  intros Hmeta. simpl. pose proof (ust_spec faults name w) as H. unfold wp in H.
  split; [|split; [|split]].
  - destruct (update_sync_tracking faults name w) as [[[]|e] w']; [done|].
    destruct H as (_ & _ & _ & Hfalse & _). congruence.
  - apply ust_frame_run.
  - destruct (update_sync_tracking faults name w) as [[[]|e] w']; simpl.
    + destruct H as (_ & _ & [(recs & _ & _ & Hlog)|(e & Hdb & Hlog)]); [by left|].
      right. by exists e.
    + destruct H as (_ & _ & _ & Hfalse & _). congruence.
  - intros names Hff Hok Hsome.
    assert (Hc : committed names (sync_table_changes faults names w).2)
      by by apply batch_run_commits.
    split; [done|]. intros t Ht. by apply committed_rows.
Qed.

Lemma tracking_failure_is_contained_witness :
  tracking_meta lagging = true ∧
  (update_sync_tracking tracking_fails "A" lagging).1 = Ok tt ∧
  tracking_db (update_sync_tracking tracking_fails "A" lagging).2 = tracking_db lagging ∧
  committed ["A"; "B"] (sync_table_changes tracking_fails ["A"; "B"] lagging).2.
Proof.
  pose proof (tracking_failure_is_contained tracking_fails "A" lagging eq_refl)
    as (H1 & _ & _ & H4).
  split; [reflexivity|]. split; [exact H1|]. split; [vm_compute; reflexivity|].
  apply (H4 ["A"; "B"]).
  - intros site n Hf. exact Hf.
  - apply meta_ok_fresh. reflexivity.
  - intros t Ht. apply elem_of_cons in Ht as [->|Ht]; [by eexists|].
    apply list_elem_of_singleton in Ht as ->. by eexists.
Defined.

(** C8, where the code does not do what the claim says.  When the tracking
    table is not yet in the secondary metadata, [update_sync_tracking] first
    reflects it, before its [try].  On a destination without tracking table
    that reflection raises, the error leaves [update_sync_tracking], and the
    batch is given up and rolled back at its first table: A keeps its old
    row, B, which the source has, is never reached, and the one error line is
    that of the batch. *)
Theorem tracking_reflection_error_aborts_batch :
  let w' := (sync_table_changes no_faults ["A"; "B"] unprepared).2 in
  (update_sync_tracking no_faults "A" unprepared).1 = Raise (NoSuchTableError tracking_name) ∧
  rolled_back ["A"; "B"] (NoSuchTableError tracking_name) w' ∧
  primary_db w' !! "A" = Some [row_a; row_b] ∧ secondary_db w' !! "A" = Some [row_b] ∧
  primary_db w' !! "B" = Some [row_b] ∧ secondary_db w' !! "B" = Some [] ∧
  tracking_db w' = None ∧
  logs w' = [LogInfo (MsgMissingCreating "A"); LogInfo (MsgCreated "A");
             LogError (MsgSyncError ["A"; "B"] (NoSuchTableError tracking_name))].
Proof. vm_compute. by repeat split. Qed.

(** C9.  The sessions open after a call of [is_first_run], of
    [update_sync_tracking] or of [sync_table_changes] are those that were
    open before it: each call has closed what it opened, whether it returned
    or raised, whatever failed on the way. *)
Theorem sessions_released faults name names w :
  sessions (is_first_run faults w).2 = sessions w ∧
  sessions (update_sync_tracking faults name w).2 = sessions w ∧
  sessions (sync_table_changes faults names w).2 = sessions w.
Proof.
  split; [|split].
  - pose proof (is_first_run_spec faults w) as H. unfold wp in H.
    destruct (is_first_run faults w) as [[b|e] w']; simpl; by destruct H.
  - by destruct (ust_frame_run faults name w) as (_ & _ & _ & _ & H).
  - by destruct (batch_run faults names w) as (_ & H & _).
Qed.

(** C10.  A call of [sync_table_changes] returns [None], whatever the list
    and whatever fails: no exception reaches the caller.  The value says
    nothing about the outcome: it is the same for a batch that was committed
    and for one that was rolled back, and both occur. *)
Theorem sync_table_changes_never_raises :
  (∀ faults names w, (sync_table_changes faults names w).1 = Ok tt) ∧
  (∃ faults names w, committed names (sync_table_changes faults names w).2) ∧
  (∃ faults names w e, rolled_back names e (sync_table_changes faults names w).2).
Proof.
  split; [|split].
  - intros faults names w. by destruct (batch_run faults names w) as (H & _).
  - exists no_faults, ["A"; "B"], lagging. vm_compute. reflexivity.
  - exists insert_fails, ["A"; "B"], lagging, (OperationalError sync_insert).
    vm_compute. reflexivity.
Qed.

(** ** Further properties of the program *)

Lemma wp_result {A} (m : M A) (P : Result A → World → Prop) w :
  wp m (λ a, P (Ok a)) (λ e, P (Raise e)) w → P (m w).1 (m w).2.
Proof. unfold wp. by destruct (m w) as [[a|e] w']. Qed.

(** X1.  [create_sync_tracking_table] leaves the mirrored tables, the
    sessions and an existing tracking table as they are, and after it the
    tracking table is in the secondary metadata, however the call ends.
    When the table is in the metadata already the call does nothing.
    Otherwise it creates the table, empty, when the destination has none and
    the statement goes through; it raises when the statement fails, and when
    the destination has the table already (the table is created without a
    test for its existence). *)
Theorem create_sync_tracking_table_outcome faults w :
  let r := create_sync_tracking_table faults w in
  primary_db r.2 = primary_db w ∧ secondary_db r.2 = secondary_db w ∧
  sessions r.2 = sessions w ∧ tracking_meta r.2 = true ∧
  (is_Some (tracking_db w) → tracking_db r.2 = tracking_db w) ∧
  (tracking_meta w = true → r = (Ok tt, w)) ∧
  (tracking_meta w = false →
     (r.1 = Ok tt ∧ faults tracking_create (ticks w) = false ∧
      tracking_db w = None ∧ tracking_db r.2 = Some []) ∨
     (r.1 = Raise (OperationalError tracking_create) ∧
      faults tracking_create (ticks w) = true ∧ tracking_db r.2 = tracking_db w) ∨
     (r.1 = Raise (ProgrammingError tracking_name) ∧
      faults tracking_create (ticks w) = false ∧ is_Some (tracking_db w))).
Proof.
  simpl. split; [|split; [|split; [|split; [|split; [|split]]]]].
  1-5: apply (wp_post (create_sync_tracking_table faults));
       unfold create_sync_tracking_table; wp_go; try done.
  - intros Hm. unfold create_sync_tracking_table, mbind, M_bind, bind, get. by rewrite Hm.
  - intros Hm.
    apply (wp_result (create_sync_tracking_table faults)
      (λ r w', (r = Ok tt ∧ faults tracking_create (ticks w) = false ∧
                tracking_db w = None ∧ tracking_db w' = Some []) ∨
               (r = Raise (OperationalError tracking_create) ∧
                faults tracking_create (ticks w) = true ∧ tracking_db w' = tracking_db w) ∨
               (r = Raise (ProgrammingError tracking_name) ∧
                faults tracking_create (ticks w) = false ∧ is_Some (tracking_db w)))).
    unfold create_sync_tracking_table. wp_go; try congruence.
    all: simpl in *.
    all: first [ by left | by right; left
               | right; right; repeat split; try done; by eexists ].
Qed.

(** X2.  In one process the creation of the tracking table is tried once:
    whatever the first call of [create_sync_tracking_table] did, a second
    call returns at once and changes nothing.  So a creation that failed is
    not made up for: the table is in the metadata and not in the
    destination. *)
Theorem create_sync_tracking_table_not_retried faults faults' w :
  let w1 := (create_sync_tracking_table faults w).2 in
  create_sync_tracking_table faults' w1 = (Ok tt, w1) ∧
  (tracking_meta w = false → tracking_db w = None →
   faults tracking_create (ticks w) = true →
   tracking_meta w1 = true ∧ tracking_db w1 = None).
Proof.
  simpl. split.
  - assert (Hm : tracking_meta (create_sync_tracking_table faults w).2 = true).
    { apply (wp_post _ (λ w', tracking_meta w' = true)).
      unfold create_sync_tracking_table. by wp_go. }
    unfold create_sync_tracking_table at 1. unfold mbind, M_bind, bind, get. by rewrite Hm.
  - intros Hm Hdb Hf.
    apply (wp_post _ (λ w', tracking_meta w' = true ∧ tracking_db w' = None)).
    unfold create_sync_tracking_table. wp_go; simpl in *; first [congruence | by split].
Qed.

(** X3.  [create_table_if_not_exists] never changes the source, the
    tracking table, the secondary metadata or the sessions, and it never
    changes or removes a destination table: the tables that exist keep
    their rows, and a table it creates is empty.  For a table that the
    secondary metadata knows it does nothing, whether the destination has
    the table or not. *)
Theorem create_table_if_not_exists_keeps_data faults t w :
  let r := create_table_if_not_exists faults t w in
  primary_db r.2 = primary_db w ∧ tracking_db r.2 = tracking_db w ∧
  secondary_meta r.2 = secondary_meta w ∧ sessions r.2 = sessions w ∧
  (∀ u rows, secondary_db w !! u = Some rows → secondary_db r.2 !! u = Some rows) ∧
  (∀ u, dest_rows r.2 u = dest_rows w u) ∧
  (t ∈ secondary_meta w → r = (Ok tt, w)).
Proof.
  simpl. split; [|split; [|split; [|split; [|split; [|split]]]]].
  1-6: apply (wp_post (create_table_if_not_exists faults t));
       unfold create_table_if_not_exists; wp_go; try done.
  all: try (intros u rows Hu; simpl; by apply lookup_union_Some_l).
  all: try (intros u; unfold dest_rows; simpl; apply dest_rows_create_all).
  intros Hin. unfold create_table_if_not_exists, mbind, M_bind, bind, get.
  by rewrite bool_decide_eq_true_2.
Qed.

(** X4.  For a table that the secondary metadata does not know and that the
    primary metadata knows or the source has, when neither the reflection
    nor the creation fails, [create_table_if_not_exists] returns, having
    logged its two lines; the primary metadata then knows the table besides
    those it knew, and the destination has every table of the primary
    metadata, not only the one asked for: those it lacked are there and
    empty. *)
Theorem create_table_if_not_exists_creates_known_tables faults t w :
  t ∉ secondary_meta w → t ∈ primary_meta w ∨ is_Some (primary_db w !! t) →
  (∀ n, faults mirror_reflect n = false) → (∀ n, faults mirror_create_all n = false) →
  let r := create_table_if_not_exists faults t w in
  r.1 = Ok tt ∧
  (∀ u, u ∈ primary_meta r.2 ↔ u = t ∨ u ∈ primary_meta w) ∧
  (∀ u, u ∈ primary_meta r.2 → is_Some (secondary_db r.2 !! u)) ∧
  (∀ u, secondary_db w !! u = None → u ∈ primary_meta r.2 → secondary_db r.2 !! u = Some []) ∧
  logs r.2 = logs w ++ [LogInfo (MsgMissingCreating t); LogInfo (MsgCreated t)].
Proof.
  intros Hsm Hsrc Hf1 Hf2. simpl.
  apply (wp_result (create_table_if_not_exists faults t)
    (λ r w', r = Ok tt ∧
       (∀ u, u ∈ primary_meta w' ↔ u = t ∨ u ∈ primary_meta w) ∧
       (∀ u, u ∈ primary_meta w' → is_Some (secondary_db w' !! u)) ∧
       (∀ u, secondary_db w !! u = None → u ∈ primary_meta w' → secondary_db w' !! u = Some []) ∧
       logs w' = logs w ++ [LogInfo (MsgMissingCreating t); LogInfo (MsgCreated t)])).
  unfold create_table_if_not_exists. wp_go.
  all: rewrite ?bool_decide_eq_true, ?bool_decide_eq_false in *; simpl in *.
  all: try congruence.
  all: try (destruct Hsrc as [?|[? ?]]; [done|congruence]).
  all: split; [done|]; split; [|split; [|split]].
  all: try (by rewrite <- app_assoc).
  all: try (intros u Hu; by apply created_create_all).
  all: try (intros u Hnone Hu; rewrite lookup_union_r by done;
            by apply lookup_gset_to_gmap_Some).
  - intros u. split; [by right|]. intros [->|Hu]; done.
  - intros u. rewrite elem_of_union, elem_of_singleton. done.
Qed.

Lemma create_table_if_not_exists_creates_known_tables_witness :
  ("A" ∉ secondary_meta bare) ∧
  (create_table_if_not_exists no_faults "A" bare).1 = Ok tt ∧
  is_Some (secondary_db (create_table_if_not_exists no_faults "A" bare).2 !! "A") ∧
  secondary_db (create_table_if_not_exists no_faults "A" bare).2 !! "C" = Some [].
Proof.
  assert (Hsm : "A" ∉ secondary_meta bare) by apply not_elem_of_empty.
  assert (Hsrc : "A" ∈ primary_meta bare ∨ is_Some (primary_db bare !! "A")).
  { right. by eexists. }
  pose proof (create_table_if_not_exists_creates_known_tables no_faults "A" bare Hsm Hsrc
                (λ _, eq_refl) (λ _, eq_refl)) as (H1 & H2 & H3 & H4 & _).
  split; [exact Hsm|]. split; [exact H1|]. split.
  - apply H3, H2. by left.
  - apply H4; [reflexivity|]. apply H2. right. vm_compute. reflexivity.
Defined.

(** X5.  For a table that neither the metadata nor the source knows,
    [create_table_if_not_exists] raises: the error of the reflection when
    the round trip fails, the error that names the missing table otherwise.
    It has logged its first line only, and nothing was created. *)
Theorem create_table_if_not_exists_missing_source faults t w :
  t ∉ secondary_meta w → t ∉ primary_meta w → primary_db w !! t = None →
  let r := create_table_if_not_exists faults t w in
  r.1 = Raise (if faults mirror_reflect (ticks w)
               then OperationalError mirror_reflect else NoSuchTableError t) ∧
  secondary_db r.2 = secondary_db w ∧ primary_meta r.2 = primary_meta w ∧
  logs r.2 = logs w ++ [LogInfo (MsgMissingCreating t)].
Proof.
  intros Hsm Hpm Hdb. simpl.
  apply (wp_result (create_table_if_not_exists faults t)
    (λ r w', r = Raise (if faults mirror_reflect (ticks w)
                        then OperationalError mirror_reflect else NoSuchTableError t) ∧
             secondary_db w' = secondary_db w ∧ primary_meta w' = primary_meta w ∧
             logs w' = logs w ++ [LogInfo (MsgMissingCreating t)])).
  unfold create_table_if_not_exists. wp_go.
  all: rewrite ?bool_decide_eq_true, ?bool_decide_eq_false in *; simpl in *.
  all: try congruence; try done.
  all: try match goal with H : _ mirror_reflect _ = _ |- _ => by rewrite H end.
Qed.

Lemma create_table_if_not_exists_missing_source_witness :
  ("Z" ∉ secondary_meta lagging) ∧ ("Z" ∉ primary_meta lagging) ∧
  primary_db lagging !! "Z" = None ∧
  (create_table_if_not_exists no_faults "Z" lagging).1 = Raise (NoSuchTableError "Z") ∧
  secondary_db (create_table_if_not_exists no_faults "Z" lagging).2 = secondary_db lagging.
Proof.
  assert (Hsm : "Z" ∉ secondary_meta lagging) by apply not_elem_of_empty.
  assert (Hpm : "Z" ∉ primary_meta lagging) by apply not_elem_of_empty.
  assert (Hdb : primary_db lagging !! "Z" = None) by (vm_compute; reflexivity).
  pose proof (create_table_if_not_exists_missing_source no_faults "Z" lagging Hsm Hpm Hdb)
    as (H1 & H2 & _).
  split; [exact Hsm|]. split; [exact Hpm|]. split; [exact Hdb|]. split; [exact H1|exact H2].
Defined.

(** X6.  [is_first_run] only reads: the two databases, the tracking table
    and the metadata of the mirrored tables are after the call what they
    were before, whatever fails.  It logs nothing, or the one error line of
    its handler, and then its answer is true. *)
Theorem is_first_run_read_only faults w :
  let r := is_first_run faults w in
  primary_db r.2 = primary_db w ∧ secondary_db r.2 = secondary_db w ∧
  tracking_db r.2 = tracking_db w ∧
  primary_meta r.2 = primary_meta w ∧ secondary_meta r.2 = secondary_meta w ∧
  (logs r.2 = logs w ∨
   ∃ e, r.1 = Ok true ∧ logs r.2 = logs w ++ [LogError (MsgFirstRunCheckError e)]).
Proof.
  simpl.
  apply (wp_result (is_first_run faults)
    (λ r w', primary_db w' = primary_db w ∧ secondary_db w' = secondary_db w ∧
       tracking_db w' = tracking_db w ∧
       primary_meta w' = primary_meta w ∧ secondary_meta w' = secondary_meta w ∧
       (logs w' = logs w ∨
        ∃ e, r = Ok true ∧ logs w' = logs w ++ [LogError (MsgFirstRunCheckError e)]))).
  unfold is_first_run. wp_go.
  all: repeat split; try done.
  all: first [ by left | right; by eexists ].
Qed.

(** X7.  The empty batch: [sync_table_changes] with no table makes the one
    round trip of its commit and writes nothing.  It returns, the databases,
    the tracking table and the sessions are as before, and the log has one
    more line: the success line of the empty list, or the error line when
    the commit failed. *)
Theorem sync_empty_batch faults w :
  let r := sync_table_changes faults [] w in
  r.1 = Ok tt ∧
  primary_db r.2 = primary_db w ∧ secondary_db r.2 = secondary_db w ∧
  tracking_db r.2 = tracking_db w ∧ sessions r.2 = sessions w ∧
  logs r.2 = logs w ++
    [if faults sync_commit (ticks w)
     then LogError (MsgSyncError [] (OperationalError sync_commit))
     else LogInfo (MsgSynchronized [])].
Proof.
  simpl.
  apply (wp_result (sync_table_changes faults [])
    (λ r w', r = Ok tt ∧
       primary_db w' = primary_db w ∧ secondary_db w' = secondary_db w ∧
       tracking_db w' = tracking_db w ∧ sessions w' = sessions w ∧
       logs w' = logs w ++
         [if faults sync_commit (ticks w)
          then LogError (MsgSyncError [] (OperationalError sync_commit))
          else LogInfo (MsgSynchronized [])])).
  unfold sync_table_changes. wp_go.
  all: simpl in *.
  all: try match goal with H : _ sync_commit _ = _ |- _ => rewrite H end.
  all: unfold pending_of; simpl; rewrite ?lookup_insert_eq; simpl.
  all: repeat split; try done.
  all: rewrite ?(left_id_L ∅ (∪)); try done.
  all: match goal with H : <[_:=_]> _ !! _ = None |- _ =>
         apply lookup_insert_None in H as [? ?] end.
  all: apply sessions_restore2; try done.
  all: intros k ? ?; rewrite lookup_alter_ne by done; by rewrite !lookup_insert_ne by done.
Qed.

(** X8.  The tracking upsert of one table leaves the records of every other
    table as they are, whether it goes through or fails. *)
Theorem tracking_upsert_keeps_other_names faults name name' w :
  name' ≠ name →
  records_for name' <$> tracking_db (update_sync_tracking faults name w).2 =
  records_for name' <$> tracking_db w.
Proof.
  intros Hne. destruct (ust_cases faults name w) as [(_ & recs & Hdb & Hnew)|[_ Hsame]].
  - simpl in Hnew. rewrite Hnew, Hdb. simpl. by rewrite upsert_other.
  - by rewrite Hsame.
Qed.

Lemma tracking_upsert_keeps_other_names_witness :
  "A" ≠ "B" ∧
  records_for "A" <$> tracking_db (update_sync_tracking no_faults "B"
                                     (update_sync_tracking no_faults "A" lagging).2).2 =
  records_for "A" <$> tracking_db (update_sync_tracking no_faults "A" lagging).2.
Proof.
  assert (Hne : "A" ≠ "B") by discriminate.
  split; [exact Hne|].
  exact (tracking_upsert_keeps_other_names no_faults "B" "A" _ Hne).
Defined.

(** X9.  Upsert, then ask: after a tracking upsert that went through, a
    call of [is_first_run] whose select does not fail answers false, and
    does nothing but its one round trip. *)
Theorem tracked_table_ends_first_run faults faults' name w :
  let w1 := (update_sync_tracking faults name w).2 in
  upsert_ok name w w1 → faults' first_run_select (ticks w1) = false →
  is_first_run faults' w1 = (Ok false, set_ticks (S (ticks w1)) w1).
Proof.
  simpl. intros Hok Hf.
  set (w1 := (update_sync_tracking faults name w).2) in *.
  assert (Hm : tracking_meta w1 = true ∧ ∃ r rs, tracking_db w1 = Some (r :: rs)).
  { pose proof (ust_spec faults name w) as H. unfold wp in H. subst w1.
    unfold upsert_ok in Hok.
    destruct (update_sync_tracking faults name w) as [[[]|e] w']; simpl in *.
    - destruct H as (_ & Hm & [(recs & _ & Hdb & _)|(e & _ & Hlog)]).
      + split; [done|]. rewrite Hdb. pose proof (upsert_has name (clock w) (S (tracking_seq w)) recs) as Hne.
        destruct (upsert name (clock w) (S (tracking_seq w)) recs) as [|r rs]; [done|]. by exists r, rs.
      + rewrite Hlog in Hok. apply app_inv_head in Hok. discriminate.
    - destruct H as (_ & _ & Hlog & _). rewrite Hlog in Hok.
      rewrite <- (app_nil_r (logs w)) in Hok at 1. apply app_inv_head in Hok. discriminate. }
  destruct Hm as (Hm & r & rs & Hdb).
  unfold is_first_run, tracking_Table, SecondarySession, new_session, try_finally, try_except,
    tracking_select_all, io, session_close, mbind, M_bind, bind, get, modify, mret, M_ret, ret.
  rewrite Hm. simpl. rewrite Hf. simpl.
  unfold tracking_view, pending_of. simpl. rewrite lookup_insert_eq. simpl. rewrite Hdb. simpl.
  f_equal. destruct w1; simpl in *. f_equal; try done.
  apply delete_insert_id, not_elem_of_dom, is_fresh.
Qed.

Lemma tracked_table_ends_first_run_witness :
  upsert_ok "A" lagging (update_sync_tracking no_faults "A" lagging).2 ∧
  no_faults first_run_select (ticks (update_sync_tracking no_faults "A" lagging).2) = false ∧
  (is_first_run no_faults (update_sync_tracking no_faults "A" lagging).2).1 = Ok false.
Proof.
  assert (Hok : upsert_ok "A" lagging (update_sync_tracking no_faults "A" lagging).2)
    by (vm_compute; reflexivity).
  split; [exact Hok|]. split; [reflexivity|].
  exact (f_equal fst (tracked_table_ends_first_run no_faults no_faults "A" lagging Hok eq_refl)).
Defined.

(** The source is read and never written. *)
Lemma inv_source faults X tables :
  inv (λ w, primary_db w = X) (main faults tables).
Proof.
  unfold main, sync_table_changes, sync_one, update_sync_tracking, is_first_run.
  inv_go; done.
Qed.

(** X10.  One-way synchronisation: the bootstrap, a batch, a tracking upsert
    and the three hooks leave the source database as it was, whatever
    fails. *)
Theorem source_never_written faults tables t w :
  primary_db (main faults tables w).2 = primary_db w ∧
  primary_db (sync_table_changes faults tables w).2 = primary_db w ∧
  primary_db (update_sync_tracking faults t w).2 = primary_db w ∧
  primary_db (after_insert faults t w).2 = primary_db w ∧
  primary_db (after_update faults t w).2 = primary_db w ∧
  primary_db (after_delete faults t w).2 = primary_db w.
Proof.
  split; [by apply inv_source|].
  split; [by destruct (batch_run faults tables w) as (_ & _ & ? & _)|].
  split; [by destruct (ust_frame_run faults t w) as (? & _)|].
  unfold after_insert, after_update, after_delete, logger_info, modify, mbind, M_bind, bind.
  repeat split.
  all: match goal with |- primary_db (sync_table_changes _ _ ?w0).2 = _ =>
         by destruct (batch_run faults [t] w0) as (_ & _ & ? & _) end.
Qed.

Lemma hook_run faults t w0 w :
  sessions w0 = sessions w → primary_db w0 = primary_db w → secondary_db w0 = secondary_db w →
  secondary_stores w0 = secondary_stores w →
  hook_outcome t w (sync_table_changes faults [t] w0).
Proof.
  intros Hs Hp Hd Hsto. destruct (batch_run faults [t] w0) as (Hret & Hss & Hpp & Hend).
  unfold hook_outcome. rewrite <- Hs, <- Hp, <- Hsto.
  split; [done|]. split; [done|]. split; [done|].
  assert (Hrows : ∀ t', dest_rows w0 t' = dest_rows w t')
    by (intros t'; unfold dest_rows; by rewrite Hd).
  destruct Hend as [(Hc & Hin & Hout)|(e & Hrb & Hsame)].
  - left. destruct (Hin t) as [Heq Hsome]; [apply list_elem_of_here|].
    repeat split; try done. intros t' Hne. rewrite <- Hrows. apply Hout.
    by intros ->%list_elem_of_singleton.
  - right. exists e. split; [done|]. intros t'. by rewrite <- Hrows.
Qed.

(** X11.  The hooks [after_insert], [after_update] and [after_delete], which
    use of their arguments the table name only, run the batch of their one
    table and never raise.  Each ends in one of two ways: the batch was
    committed, the destination table has the rows of the source as it stores
    them and the other tables have their old rows; or it was rolled back and
    every destination table has its old rows.  The sessions are released and
    the source is as before. *)
Theorem hooks_all_or_nothing faults t w :
  hook_outcome t w (after_insert faults t w) ∧
  hook_outcome t w (after_update faults t w) ∧
  hook_outcome t w (after_delete faults t w).
Proof.
  unfold after_insert, after_update, after_delete, logger_info, modify, mbind, M_bind, bind.
  split; [|split]; by apply hook_run.
Qed.

(** X12.  When nothing but the round trips on the tracking table can fail,
    the secondary metadata knows no table that the destination lacks, the
    tracking table is known or there, and the source has the table, each of
    the three hooks leaves in the destination table the rows of the source as
    that table stores them.  When the table stores them as they are, as a
    table with the columns and the types of the source table does, the
    destination table has exactly the rows of the source: a row deleted in
    the source is gone from the destination as well. *)
Theorem hooks_mirror_table faults t w rows :
  data_faults_free faults → fit t w → primary_db w !! t = Some rows →
  (secondary_db (after_insert faults t w).2 !! t = Some (map (secondary_stores w t) rows) ∧
   secondary_db (after_update faults t w).2 !! t = Some (map (secondary_stores w t) rows) ∧
   secondary_db (after_delete faults t w).2 !! t = Some (map (secondary_stores w t) rows)) ∧
  ((∀ row, row ∈ rows → secondary_stores w t row = row) →
   secondary_db (after_insert faults t w).2 !! t = Some rows ∧
   secondary_db (after_update faults t w).2 !! t = Some rows ∧
   secondary_db (after_delete faults t w).2 !! t = Some rows).
Proof.
  intros Hff Hfit Hrows.
  assert (Hsome : is_Some (primary_db w !! t)) by by eexists.
  assert (Hall :
    secondary_db (after_insert faults t w).2 !! t = Some (map (secondary_stores w t) rows) ∧
    secondary_db (after_update faults t w).2 !! t = Some (map (secondary_stores w t) rows) ∧
    secondary_db (after_delete faults t w).2 !! t = Some (map (secondary_stores w t) rows)).
  { unfold after_insert, after_update, after_delete, logger_info, modify, mbind, M_bind, bind.
    repeat split.
    all: match goal with |- secondary_db (sync_table_changes _ _ ?w0).2 !! _ = _ =>
           assert (Hc : committed [t] (sync_table_changes faults [t] w0).2)
             by (by apply single_commits);
           destruct (committed_rows faults [t] w0 t Hc) as [Heq _];
             [apply list_elem_of_here|rewrite Heq; simpl; by rewrite Hrows] end. }
  split; [done|]. intros Hsame.
  assert (Hmap : map (secondary_stores w t) rows = rows).
  { clear Hrows Hsome Hall. induction rows as [|row rows' IH]; [done|]. simpl.
    rewrite Hsame by left. f_equal. apply IH. intros row' Hrow'. apply Hsame. by right. }
  by rewrite Hmap in Hall.
Qed.

Lemma hooks_mirror_table_witness :
  data_faults_free tracking_fails ∧ fit "A" lagging ∧
  primary_db lagging !! "A" = Some [row_a; row_b] ∧
  secondary_db (after_delete tracking_fails "A" lagging).2 !! "A" = Some [row_a; row_b].
Proof.
  assert (Hff : data_faults_free tracking_fails) by (intros site n Hf; exact Hf).
  assert (Hfit : fit "A" lagging).
  { split; [|by left]. intros Hin. by apply elem_of_empty in Hin. }
  assert (Hrows : primary_db lagging !! "A" = Some [row_a; row_b]) by reflexivity.
  split; [exact Hff|]. split; [exact Hfit|]. split; [exact Hrows|].
  destruct (hooks_mirror_table tracking_fails "A" lagging _ Hff Hfit Hrows) as [_ H].
  apply H. intros row _. reflexivity.
Defined.

Section Blocked.
Context (faults : Site → nat → bool).

Lemma ust_no_table name w :
  untracked w →
  wp (update_sync_tracking faults name) (λ _ _, False) (λ _, untracked) w.
Proof.
  intros [Hmeta Hnone]. unfold update_sync_tracking, untracked.
  apply wp_bind. wp_go; by try congruence.
Qed.

Lemma sync_one_no_table p s t w :
  untracked w →
  wp (sync_one faults p s t) (λ _ _, False) (λ _, untracked) w.
Proof.
  intros Hun. unfold sync_one.
  do 3 (apply wp_seq_inv with (P := untracked);
        [inv_go; done | done | clear w Hun; intros [] w Hun | done]).
  apply wp_seq_inv with (P := untracked);
        [inv_go; done | done | clear w Hun; intros rows w Hun | done].
  do 2 (apply wp_seq_inv with (P := untracked);
        [inv_go; done | done | clear w Hun; intros [] w Hun | done]).
  by apply ust_no_table.
Qed.

Lemma batch_no_table t rest w :
  untracked w →
  untracked (sync_table_changes faults (t :: rest) w).2 ∧
  ∃ e, rolled_back (t :: rest) e (sync_table_changes faults (t :: rest) w).2.
Proof.
  intros Hun.
  apply (wp_post _ (λ w', untracked w' ∧ ∃ e, rolled_back (t :: rest) e w')).
  unfold sync_table_changes. wp_go.
  eapply wp_conseq; [by apply sync_one_no_table|done|]; simpl.
  intros e w1 Hun1. wp_go. split; [done|]. eexists. apply last_snoc.
Qed.


End Blocked.

(** X13.  In a process that does not know the tracking table, on a
    destination that has none, no batch with a table in it is ever
    committed: whatever the tables and whatever else fails, the batch is
    rolled back, every destination table keeps its rows, and the process is
    where it was, so the next batch ends the same way. *)
Theorem batch_without_tracking_table faults t rest w :
  untracked w →
  let r := sync_table_changes faults (t :: rest) w in
  (∃ e, rolled_back (t :: rest) e r.2) ∧ (∀ u, dest_rows r.2 u = dest_rows w u) ∧
  untracked r.2.
Proof.
  intros Hun. simpl. destruct (batch_no_table faults t rest w Hun) as [Hun' [e Hrb]].
  split; [by exists e|]. split; [|done]. intros u. by eapply rolled_back_rows.
Qed.

Lemma batch_without_tracking_table_witness :
  untracked unprepared ∧
  (∃ e, rolled_back ["B"; "A"] e (sync_table_changes no_faults ["B"; "A"] unprepared).2) ∧
  untracked (sync_table_changes no_faults ["B"; "A"] unprepared).2.
Proof.
  assert (Hun : untracked unprepared) by (split; reflexivity).
  pose proof (batch_without_tracking_table no_faults "B" ["A"] unprepared Hun) as (H1 & _ & H3).
  split; [exact Hun|]. split; [exact H1|exact H3].
Defined.



(** ** The bootstrap as a whole *)

Lemma wp_report tables Q E : ∀ w,
  Q tt (set_logs (logs w ++ map (setup_line (primary_meta w)) tables) w) →
  wp (for_each tables
        (λ table_name,
           w ← get;
           if bool_decide (table_name ∈ primary_meta w)
           then logger_info (MsgSettingUp table_name)
           else logger_error (MsgNotInPrimary table_name))) Q E w.
Proof.
  induction tables as [|t tables IH]; intros w HQ; simpl in *.
  - apply wp_ret. rewrite app_nil_r in HQ. by destruct w.
  - wp_go; apply IH; simpl; unfold setup_line in HQ at 1;
      match goal with H : bool_decide _ = _ |- _ => rewrite H in HQ end;
      by rewrite <- app_assoc.
Qed.

Section Bootstrap.
Context (faults : Site → nat → bool).

(** X15.  The bootstrap stops with an exception only at its start: when a
    reflection of the metadata fails or the creation of the tracking table
    fails.  The mirrored tables of the destination and the tracking table
    are then untouched.  When these three round trips go through it
    returns, whatever fails later: the first-run test fails open and the
    batch keeps its errors to itself; its last line is that of the
    completed setup. *)
Theorem bootstrap_raises_only_at_start tables w :
  let r := main faults tables w in
  (∀ e, r.1 = Raise e →
     (e = OperationalError boot_reflect_primary ∨
      e = OperationalError boot_reflect_secondary ∨
      e = OperationalError tracking_create) ∧
     secondary_db r.2 = secondary_db w ∧ tracking_db r.2 = tracking_db w) ∧
  (r.1 = Ok tt → last (logs r.2) = Some (LogInfo MsgSetupComplete)) ∧
  (faults boot_reflect_primary (ticks w) = false →
   faults boot_reflect_secondary (S (ticks w)) = false →
   faults tracking_create (S (S (ticks w))) = false →
   r.1 = Ok tt).
Proof.
  simpl.
  apply (wp_result (main faults tables)
    (λ r w',
       (∀ e, r = Raise e →
          (e = OperationalError boot_reflect_primary ∨
           e = OperationalError boot_reflect_secondary ∨
           e = OperationalError tracking_create) ∧
          secondary_db w' = secondary_db w ∧ tracking_db w' = tracking_db w) ∧
       (r = Ok tt → last (logs w') = Some (LogInfo MsgSetupComplete)) ∧
       (faults boot_reflect_primary (ticks w) = false →
        faults boot_reflect_secondary (S (ticks w)) = false →
        faults tracking_create (S (S (ticks w))) = false →
        r = Ok tt))).
  unfold main. wp_go.
  all: simpl in *.
  all: try (split; [|split]; [intros e [= <-]; repeat split; auto | done | intros; congruence]).
  all: try (exfalso; match goal with
            | H : _ || true = false |- _ => by rewrite orb_true_r in H
            end).
  all: (eapply wp_conseq; [apply is_first_run_spec| |]; simpl;
        [intros b w2 _ | intros e w2 (_ & _ & _ & _ & ? & _); simpl in *; congruence]).
  all: (apply wp_bind; apply (wp_conseq _ _ (λ _ _, True) _ (λ _ _, False));
        [ destruct b; wp_go; try done;
          eapply wp_conseq; [apply batch_spec|done|done]
        | intros [] w3 _ | done ]).
  all: apply wp_bind, wp_report; wp_go.
  all: split; [done|]; split; [intros _; apply last_snoc|done].
Qed.

Lemma primary_Table_known pdb site t :
  inv (λ w, primary_db w = pdb ∧ primary_meta w = dom pdb) (primary_Table faults site t).
Proof.
  apply inv_of_wp. intros w [Hdb Hpm]. wp_go; try done.
  split; [done|]. simpl. rewrite Hpm. apply subseteq_union_1_L, singleton_subseteq_l.
  apply elem_of_dom. rewrite <- Hdb. by eexists.
Qed.

Lemma batch_known pdb names :
  inv (λ w, primary_db w = pdb ∧ primary_meta w = dom pdb) (sync_table_changes faults names).
Proof.
  unfold sync_table_changes, sync_one, create_table_if_not_exists.
  repeat first [apply primary_Table_known | inv_step].
  all: try (apply inv_ust; intros w w' (Hp & _ & Hm & _) [? ?]; split; congruence).
  all: done.
Qed.

(** X16.  In a process that has just started, a bootstrap that returns ends
    its log with one line for each requested table, in the order of the
    list, and the line of the completed setup: the line of a table is the
    information that its synchronisation is set up when the source has the
    table, the error that the table does not exist in the primary database
    otherwise.  The loop that writes these lines does nothing else. *)
Theorem bootstrap_reports_each_table pdb sdb sto tdb seq now tables :
  let r := main faults tables (boot_world pdb sdb sto tdb seq now) in
  r.1 = Ok tt →
  ∃ pre, logs r.2 = pre ++ map (setup_line (dom pdb)) tables ++ [LogInfo MsgSetupComplete].
Proof.
  simpl.
  apply (wp_result (main faults tables)
    (λ r w', r = Ok tt →
       ∃ pre, logs w' = pre ++ map (setup_line (dom pdb)) tables ++ [LogInfo MsgSetupComplete])).
  unfold main. apply wp_bind. unfold primary_reflect at 1. apply wp_bind.
  apply wp_io; intros Hf; [done|]. simpl. apply wp_modify. simpl.
  rewrite (left_id_L ∅ (∪)).
  set (P := λ w : World, primary_db w = pdb ∧ primary_meta w = dom pdb).
  do 2 (apply wp_seq_inv with (P := P);
        [ subst P; inv_go; done | done | intros [] ? ? | done ]).
  apply wp_seq_inv with (P := P);
    [ subst P; unfold is_first_run; inv_go; done | done | intros b ? ? | done ].
  apply wp_seq_inv with (P := P);
    [ subst P; destruct b; inv_go; try done; apply batch_known | done | intros [] w4 [_ Hpm]
    | done ].
  apply wp_bind, wp_report; wp_go. intros _. rewrite Hpm.
  exists (logs w4). by rewrite <- app_assoc.
Qed.

End Bootstrap.

Lemma bootstrap_reports_each_table_witness :
  (main no_faults ["Z"; "A"] unprepared).1 = Ok tt ∧
  ∃ pre, logs (main no_faults ["Z"; "A"] unprepared).2 =
    pre ++ map (setup_line (dom (primary_db unprepared))) ["Z"; "A"] ++
    [LogInfo MsgSetupComplete].
Proof.
  assert (H : (main no_faults ["Z"; "A"] unprepared).1 = Ok tt) by (vm_compute; reflexivity).
  split; [exact H|].
  exact (bootstrap_reports_each_table no_faults _ _ _ _ _ _ ["Z"; "A"] H).
Defined.

(** ** The tracking table after a first run *)

Lemma ust_goes_through name recs w :
  tracking_meta w = true → tracking_db w = Some recs →
  wp (update_sync_tracking no_faults name)
     (λ _ w', tracking_meta w' = true ∧
              tracking_db w' = Some (upsert name (clock w) (S (tracking_seq w)) recs))
     (λ _ _, False) w.
Proof.
  intros Hm Hdb. unfold update_sync_tracking. wp_go; try done.
  all: unfold_session.
  all: try congruence.
  all: split; [done|].
  all: unfold upsert, records_for.
  all: match goal with H : head _ = _ |- _ => by rewrite H end.
Qed.

Lemma sync_one_tracking p s t recs w :
  tracking_meta w = true → tracking_db w = Some recs →
  wp (sync_one no_faults p s t)
     (λ _ w', ∃ now id, tracking_db w' = Some (upsert t now id recs))
     (λ _ _, True) w.
Proof.
  intros Hm Hdb. unfold sync_one.
  assert (HP : tracking_meta w = true ∧ tracking_db w = Some recs) by done.
  clear Hm Hdb.
  do 3 (apply wp_seq_inv with (P := λ w, tracking_meta w = true ∧ tracking_db w = Some recs);
        [inv_go; done | done | clear w HP; intros [] w HP | done]).
  apply wp_seq_inv with (P := λ w, tracking_meta w = true ∧ tracking_db w = Some recs);
        [inv_go; done | done | clear w HP; intros rows w HP | done].
  do 2 (apply wp_seq_inv with (P := λ w, tracking_meta w = true ∧ tracking_db w = Some recs);
        [inv_go; done | done | clear w HP; intros [] w HP | done]).
  destruct HP as [Hm Hdb].
  eapply wp_conseq; [by apply ust_goes_through| |done].
  intros [] w' [_ Hnew]. by do 2 eexists.
Qed.

Lemma upserted_refl recs : upserted [] recs recs.
Proof.
  repeat split; try done. intros t Ht. by apply elem_of_nil in Ht.
Qed.

Lemma upserted_cons t names now id recs recs' :
  upserted names (upsert t now id recs) recs' → upserted (t :: names) recs recs'.
Proof.
  intros (Hin & Hkeep & Hout & Hone). repeat split.
  - intros u Hu. apply elem_of_cons in Hu as [->|Hu]; [|by apply Hin].
    apply Hkeep, upsert_has.
  - intros u Hu. by apply Hkeep, upsert_keeps.
  - intros u Hu. rewrite Hout.
    + apply upsert_other. intros ->. apply Hu. left.
    + intros Hu'. apply Hu. by right.
  - intros H. by apply Hone, upsert_one_per_name.
Qed.

Lemma batch_records p s names : ∀ recs w,
  ready w → tracking_db w = Some recs →
  (∀ t, t ∈ names → is_Some (primary_db w !! t)) →
  wp (for_each names (sync_one no_faults p s))
     (λ _ w', ∃ recs', tracking_db w' = Some recs' ∧ upserted names recs recs')
     (λ _ _, False) w.
Proof.
  induction names as [|t names IH]; intros recs w Hready Hdb Hsome; simpl.
  - apply wp_ret. exists recs. split; [done|apply upserted_refl].
  - eapply wp_seq.
    + apply wp_and.
      * apply (sync_one_progress no_faults no_faults_free p s t w Hready).
        apply Hsome. left.
      * apply (sync_one_tracking p s t recs w); [by destruct Hready|done].
    + intros [] w1 [[Hready1 Hp1] (now & id & Hdb1)]. simpl.
      eapply wp_conseq; [apply (IH _ w1 Hready1 Hdb1)| |done].
      * intros t' Ht'. rewrite Hp1. apply Hsome. by right.
      * intros [] w2 (recs' & Hdb2 & Hup). exists recs'. split; [done|].
        by eapply upserted_cons.
    + by intros e w' [[] _].
Qed.

Lemma batch_tracks names recs w :
  ready w → tracking_db w = Some recs →
  (∀ t, t ∈ names → is_Some (primary_db w !! t)) →
  wp (sync_table_changes no_faults names)
     (λ _ w', ∃ recs', tracking_db w' = Some recs' ∧ upserted names recs recs')
     (λ _ _, False) w.
Proof.
  intros Hready Hdb Hsome. unfold sync_table_changes. wp_go.
  eapply wp_conseq.
  - apply wp_and; [by apply batch_records | apply batch_loop].
  - intros [] w3 [(recs' & Hdb3 & Hup) [(_ & _ & _ & Hpt & _) _]]. wp_go; try done.
    exists recs'. split; [|done]. unfold pending_of in *. simpl in *. rewrite Hpt.
    rewrite lookup_insert_eq. simpl. done.
  - by intros e w3 [[] _].
Qed.

Lemma main_first_run_records pdb sdb sto tdb seq now tables :
  tdb = None ∨ tdb = Some [] →
  (∀ t, t ∈ tables → is_Some (pdb !! t)) →
  ∃ recs,
    tracking_db (main no_faults tables (boot_world pdb sdb sto tdb seq now)).2 = Some recs ∧
          upserted tables [] recs.
Proof.
  intros Htdb Hsome.
  apply (wp_post _ (λ w', ∃ recs, tracking_db w' = Some recs ∧ upserted tables [] recs)).
  unfold main, boot_world.
  destruct Htdb as [-> | ->]; wp_go; try done.
  all: (eapply wp_conseq; [apply is_first_run_spec| |]; simpl;
        [intros b w2 (_ & Hsdb & Htdb & Hpdb & Hsm & Htm & Hb)
        | by intros e w2 (_ & _ & _ & _ & ? & _)]).
  all: rewrite (Hb _ eq_refl); clear Hb; wp_go.
  all: (eapply wp_conseq; [apply (batch_tracks tables [])| |done]; simpl).
  all: try (split; [done|]; intros t Ht; simpl in *; rewrite Hsdb; rewrite Hsm in Ht;
            apply elem_of_dom; apply elem_of_union in Ht as [Ht|Ht];
            [by apply elem_of_empty in Ht|done]).
  all: try done.
  all: try (intros t Ht; simpl; rewrite Hpdb; simpl; by apply Hsome).
  all: intros [] w3 (recs & Hdb3 & Hup).
  all: apply wp_bind, wp_report; wp_go; by exists recs.
Qed.

(** X17.  A first run, nothing failing, the requested tables all in the
    source: after the bootstrap the tracking table has exactly one record
    for each requested table and no other record.  With an empty list it
    has none. *)
Theorem first_run_tracks_each_table pdb sdb sto tdb seq now tables :
  tdb = None ∨ tdb = Some [] →
  (∀ t, t ∈ tables → is_Some (pdb !! t)) →
  ∃ recs,
    tracking_db (main no_faults tables (boot_world pdb sdb sto tdb seq now)).2 = Some recs ∧
    ∀ t, length (records_for t recs) = if bool_decide (t ∈ tables) then 1 else 0.
Proof.
  intros Htdb Hsome.
  destruct (main_first_run_records pdb sdb sto tdb seq now tables Htdb Hsome)
    as (recs & Hdb & Hin & _ & Hout & Hone).
  exists recs. split; [done|]. intros t.
  destruct (bool_decide (t ∈ tables)) eqn:Ht;
    rewrite ?bool_decide_eq_true, ?bool_decide_eq_false in Ht.
  - assert (Hle : length (records_for t recs) ≤ 1)
      by (apply Hone; intros ?; simpl; lia).
    specialize (Hin t Ht). destruct (records_for t recs) as [|? [|? ?]]; simpl in *;
      first [done | lia].
  - by rewrite Hout.
Qed.

Lemma first_run_tracks_each_table_witness :
  (@None (list TrackRec) = None ∨ @None (list TrackRec) = Some []) ∧
  (∀ t, t ∈ ["A"; "B"] → is_Some (primary_db unprepared !! t)) ∧
  ∃ recs, tracking_db (main no_faults ["A"; "B"] unprepared).2 = Some recs ∧
    ∀ t, length (records_for t recs) = if bool_decide (t ∈ ["A"; "B"]) then 1 else 0.
Proof.
  assert (H1 : @None (list TrackRec) = None ∨ @None (list TrackRec) = Some []) by by left.
  assert (H2 : ∀ t, t ∈ ["A"; "B"] → is_Some (primary_db unprepared !! t)).
  { intros t Ht. apply elem_of_cons in Ht as [->|Ht]; [by eexists|].
    apply list_elem_of_singleton in Ht as ->. by eexists. }
  split; [exact H1|]. split; [exact H2|].
  exact (first_run_tracks_each_table _ _ _ None 0 100 ["A"; "B"] H1 H2).
Defined.

(** X18.  Once a first run over a list with a table in it has gone through,
    a later bootstrap on the same destination, in a new process, is not a
    first run, whatever its list and whatever the source has become: it
    leaves every destination table as the first run left it. *)
Theorem later_bootstrap_leaves_destination
    pdb sdb sto tdb seq now t rest pdb' now' tables' :
  tdb = None ∨ tdb = Some [] →
  (∀ u, u ∈ t :: rest → is_Some (pdb !! u)) →
  let w1 := (main no_faults (t :: rest) (boot_world pdb sdb sto tdb seq now)).2 in
  let w2 := (main no_faults tables'
               (boot_world pdb' (secondary_db w1) (secondary_stores w1)
                  (tracking_db w1) (tracking_seq w1) now')).2 in
  LogInfo MsgNotFirstRun ∈ logs w2 ∧ secondary_db w2 = secondary_db w1.
Proof.
  intros Htdb Hsome. simpl.
  destruct (main_first_run_records pdb sdb sto tdb seq now (t :: rest) Htdb Hsome)
    as (recs & Hdb & Hin & _).
  assert (Hrec : records_for t recs ≠ []) by (apply Hin; left).
  destruct recs as [|r rs]; [done|]. rewrite Hdb.
  set (w1 := (main no_faults (t :: rest) (boot_world pdb sdb sto tdb seq now)).2) in *.
  assert (Hlog : LogInfo MsgNotFirstRun ∈
    logs (main no_faults tables' (boot_world pdb' (secondary_db w1) (secondary_stores w1)
            (Some (r :: rs)) (tracking_seq w1) now')).2) by by apply main_later_run.
  split; [done|].
  rewrite (main_not_first_run no_faults tables' _); [done| |done].
  unfold quiet_so_far, boot_world. simpl. apply not_elem_of_nil.
Qed.

Lemma later_bootstrap_leaves_destination_witness :
  (@None (list TrackRec) = None ∨ @None (list TrackRec) = Some []) ∧
  (∀ u, u ∈ ["A"] → is_Some (primary_db unprepared !! u)) ∧
  secondary_db (main no_faults ["A"]
    (boot_world {["A" := [row_b]]}
       (secondary_db (main no_faults ["A"] unprepared).2)
       (secondary_stores (main no_faults ["A"] unprepared).2)
       (tracking_db (main no_faults ["A"] unprepared).2)
       (tracking_seq (main no_faults ["A"] unprepared).2) 200)).2 =
  secondary_db (main no_faults ["A"] unprepared).2.
Proof.
  assert (H1 : @None (list TrackRec) = None ∨ @None (list TrackRec) = Some []) by by left.
  assert (H2 : ∀ u, u ∈ ["A"] → is_Some (primary_db unprepared !! u)).
  { intros u Hu. apply list_elem_of_singleton in Hu as ->. by eexists. }
  split; [exact H1|]. split; [exact H2|].
  exact (proj2 (later_bootstrap_leaves_destination _ _ _ None 0 100 "A" [] {["A" := [row_b]]}
                  200 ["A"] H1 H2)).
Defined.
